(** * BM25 top-K equivalence checker: a shallow embedding

    Embedding of [tools/bm25_equiv_strict.py] (locked statistics) and
    [tools/bm25_equiv.py] (independent statistics).

    Modelling conventions.
    - A Python [str] is a Rocq [string]; a character is a code point below
      256, so the development covers text in the Latin-1 range.  On that
      range [str.isspace], the regular expression class [\s] and
      [str.lower] are the tables [py_isspace] and [py_lower] below, and
      Python's [<] on [str] is the lexicographic order on code points.
    - A Python [float] is a real number: scores live in [R], [math.log] is
      [ln], and rounding is not modelled, so a theorem about the value of a
      score is about the exact value of the formula that the code evaluates
      in binary64.  Where rounding decides, the step of the scorer is also
      given on primitive floats ([B64]).  The selector and the expander
      only compare scores, so they are written over any type that carries
      [==] and [<] of floats that are not NaN ([PyFloat]).
    - A Python [int] is a [Z]; lengths and [Counter] counts are [nat].
    - An exception is a value: fallible functions return [result]. *)

From Stdlib Require Import Floats.PrimFloat Numbers.Cyclic.Int63.Uint63.
From Stdlib Require Import Reals Lra Lia ZArith String Ascii List.
From stdpp Require Import gmap strings list sorting.

Open Scope string_scope.
Open Scope nat_scope.
Open Scope list_scope.

(** ** Exceptions *)

Inductive exn := IndexError | ZeroDivisionError.

Inductive result (A : Type) :=
  | Ok (a : A)
  | Raise (e : exn).
Arguments Ok {A} a.
Arguments Raise {A} e.

#[global] Instance result_ret : MRet result := fun _ a => Ok a.
#[global] Instance result_bind : MBind result := fun _ _ f m =>
  match m with
  | Ok a => f a
  | Raise e => Raise e
  end.

(** [[f(x) for x in l]] where [f] may raise: the first exception wins. *)
Fixpoint map_result {A B} (f : A -> result B) (l : list A) : result (list B) :=
  match l with
  | [] => Ok []
  | x :: l' => y ← f x; ys ← map_result f l'; Ok (y :: ys)
  end.

(** [l[i]] for [i >= 0]. *)
Definition index {A} (l : list A) (i : nat) : result A :=
  match l !! i with
  | Some x => Ok x
  | None => Raise IndexError
  end.

(** ** Text *)

Definition code (c : ascii) : nat := nat_of_ascii c.

(** [str.isspace] and [\s] on code points below 256. *)
Definition py_isspace (c : ascii) : bool :=
  let n := code c in
  ((9 <=? n) && (n <=? 13)) || ((28 <=? n) && (n <=? 32))
  || (n =? 133) || (n =? 160).

(** [str.lower] on code points below 256. *)
Definition py_lower (c : ascii) : ascii :=
  let n := code c in
  if ((65 <=? n) && (n <=? 90))
     || ((192 <=? n) && (n <=? 222) && negb (n =? 215))
  then ascii_of_nat (n + 32) else c.

(** The character class [[a-z0-9]] of [WORD]. *)
Definition is_word_char (c : ascii) : bool :=
  let n := code c in
  ((97 <=? n) && (n <=? 122)) || ((48 <=? n) && (n <=? 57)).

(** [re.sub(r"\s+", " ", s)]: [in_ws] records that the previous character
    belonged to the run being replaced. *)
Fixpoint collapse_ws (in_ws : bool) (s : list ascii) : list ascii :=
  match s with
  | [] => []
  | c :: s' =>
      if py_isspace c
      then (if in_ws then collapse_ws true s' else " "%char :: collapse_ws true s')
      else c :: collapse_ws false s'
  end.

Fixpoint lstrip (s : list ascii) : list ascii :=
  match s with
  | [] => []
  | c :: s' => if py_isspace c then lstrip s' else s
  end.

Fixpoint rstrip (s : list ascii) : list ascii :=
  match s with
  | [] => []
  | c :: s' =>
      match rstrip s' with
      | [] => if py_isspace c then [] else [c]
      | r => c :: r
      end
  end.

(** [s.strip()] *)
Definition strip (s : list ascii) : list ascii := rstrip (lstrip s).

(** [s.lower()] *)
Definition lower (s : list ascii) : list ascii := map py_lower s.

Definition norm_chars (s : list ascii) : list ascii :=
  lower (strip (collapse_ws false s)).

Definition norm_ws_lower (s : string) : string :=
  string_of_list_ascii (norm_chars (list_ascii_of_string s)).

(** [WORD.findall]: [cur] is the run of word characters read so far. *)
Definition flush (cur : list ascii) : list string :=
  match cur with
  | [] => []
  | _ => [string_of_list_ascii cur]
  end.

Fixpoint findall_word (cur : list ascii) (s : list ascii) : list string :=
  match s with
  | [] => flush cur
  | c :: s' =>
      if is_word_char c then findall_word (cur ++ [c]) s'
      else flush cur ++ findall_word [] s'
  end.

Definition tokenize (s : string) : list string :=
  findall_word [] (lower (list_ascii_of_string s)).

(** [for x in l: s = step(s, x)] where the body may raise. *)
Fixpoint for_each {A S} (step : S -> A -> result S) (s : S) (l : list A)
  : result S :=
  match l with
  | [] => Ok s
  | x :: l' => s' ← step s x; for_each step s' l'
  end.

(** [enumerate(l)] *)
Definition enumerate {A} (l : list A) : list (nat * A) :=
  zip (seq 0 (length l)) l.

(** [l[:k]]: a negative [k] counts from the end. *)
Definition slice_to {A} (l : list A) (k : Z) : list A :=
  if (0 <=? k)%Z then take (Z.to_nat k) l
  else take (Z.to_nat (Z.of_nat (length l) + k)) l.

(** ** Counters *)

(** [c[x] += 1] on a [Counter]. *)
Definition incr (x : string) (c : gmap string nat) : gmap string nat :=
  <[x := S (default 0 (c !! x))]> c.

(** [Counter(xs)] *)
Definition Counter (xs : list string) : gmap string nat :=
  foldl (fun c x => incr x c) ∅ xs.

(** [c.get(x, d)] *)
Definition get {V} (c : gmap string V) (x : string) (d : V) : V :=
  default d (c !! x).

(** [df.update(set(t))] *)
Definition update_set (df : gmap string nat) (t : list string)
  : gmap string nat :=
  set_fold incr df (list_to_set t : gset string).

(** ** Scores as an ordered type *)

Class PyFloat (F : Type) := {
  feq : F -> F -> bool;
  flt : F -> F -> bool
}.

Class PyFloatOrder (F : Type) `{PyFloat F} : Prop := {
  feq_eq : forall x y : F, feq x y = true <-> x = y;
  flt_irrefl : forall x : F, flt x x = false;
  flt_trans : forall x y z : F, flt x y = true -> flt y z = true -> flt x z = true;
  flt_connex : forall x y : F, x <> y -> flt x y = true \/ flt y x = true
}.

#[global] Instance R_float : PyFloat R := {|
  feq x y := if Req_dec_T x y then true else false;
  flt x y := if Rlt_dec x y then true else false
|}.

#[global] Instance Z_float : PyFloat Z := {|
  feq := Z.eqb;
  flt := Z.ltb
|}.

(** ** Ranking *)

Section Ranking.
Context {F : Type} `{PyFloat F}.

(** The two kinds of dictionaries in a ranked list. *)
Record full_entry := {
  fe_rank : nat;
  fe_score : F;
  fe_doc : string;
  fe_i : nat
}.

Record recon_entry := {
  re_rank : nat;
  re_score : F;
  re_doc : string
}.

Record mismatch := {
  m_rank : nat;
  m_full_doc : string;
  m_full_score : F;
  m_recon_doc : string;
  m_recon_score : F
}.

(** [(s1, d1) < (s2, d2)] on tuples: the first components that differ
    decide. *)
Definition key_lt (a b : F * string) : bool :=
  if feq a.1 b.1 then String.ltb a.2 b.2 else flt a.1 b.1.

(** [key_ge a b]: [a] may stand before [b] in descending order. *)
Definition key_ge (a b : F * string) : Prop := key_lt a b = false.

(** [list.sort(key=..., reverse=True)] is a stable sort into descending key
    order: elements with equal keys keep their order.  Insertion from the
    right gives that order. *)
Fixpoint insert_desc (x : F * string * nat) (l : list (F * string * nat))
  : list (F * string * nat) :=
  match l with
  | [] => [x]
  | y :: l' => if key_lt x.1 y.1 then y :: insert_desc x l' else x :: y :: l'
  end.

Definition sort_desc (l : list (F * string * nat)) : list (F * string * nat) :=
  foldr insert_desc [] l.

(** [idx = list(range(len(docs))); idx.sort(key=lambda i: (scores[i], docs[i]), reverse=True)]:
    the keys are computed first, one per index. *)
Definition sort_key (docs : list string) (scores : list F) (i : nat)
  : result (F * string * nat) :=
  s ← index scores i; d ← index docs i; Ok (s, d, i).

Definition sorted_indices (docs : list string) (scores : list F)
  : result (list nat) :=
  keyed ← map_result (sort_key docs scores) (seq 0 (length docs));
  Ok (snd <$> sort_desc keyed).

Definition topk_docs (docs : list string) (scores : list F) (k : Z)
  : result (list full_entry) :=
  idx ← sorted_indices docs scores;
  map_result
    (fun ri : nat * nat =>
       s ← index scores ri.2; d ← index docs ri.2;
       Ok {| fe_rank := ri.1 + 1; fe_score := s; fe_doc := d; fe_i := ri.2 |})
    (enumerate (slice_to idx k)).

(** [tools/bm25_equiv.py] has the same selector under another name. *)
Definition topk_full (docs : list string) (scores : list F) (k : Z)
  : result (list full_entry) :=
  idx ← sorted_indices docs scores;
  map_result
    (fun ri : nat * nat =>
       s ← index scores ri.2; d ← index docs ri.2;
       Ok {| fe_rank := ri.1 + 1; fe_score := s; fe_doc := d; fe_i := ri.2 |})
    (enumerate (slice_to idx k)).

(** [for _ in range(take): out.append({...})] *)
Fixpoint emit (unique_scores : list F) (i : nat) (doc : string) (take : nat)
    (out : list recon_entry) : result (list recon_entry) :=
  match take with
  | 0 => Ok out
  | S take' =>
      s ← index unique_scores i;
      emit unique_scores i doc take'
        (out ++ [{| re_rank := length out + 1; re_score := s; re_doc := doc |}])
  end.

(** [for i in order: ...] with its [break]. *)
Fixpoint expand (unique_docs : list string) (unique_scores : list F)
    (counts_map : gmap string Z) (k : Z) (order : list nat)
    (out : list recon_entry) : result (list recon_entry) :=
  match order with
  | [] => Ok out
  | i :: order' =>
      if (k <=? Z.of_nat (length out))%Z then Ok out
      else
        doc ← index unique_docs i;
        let c := get counts_map doc 1%Z in
        let take := Z.min c (k - Z.of_nat (length out)) in
        out' ← emit unique_scores i doc (Z.to_nat take) out;
        expand unique_docs unique_scores counts_map k order' out'
  end.

Definition topk_reconstructed (unique_docs : list string)
    (unique_scores : list F) (counts_map : gmap string Z) (k : Z)
  : result (list recon_entry) :=
  order ← sorted_indices unique_docs unique_scores;
  expand unique_docs unique_scores counts_map k order [].

(** The comparison loop of [main]. *)
Definition diff_step (full_top : list full_entry) (red_top : list recon_entry)
    (mismatches : list mismatch) (i : nat) : result (list mismatch) :=
  f ← index full_top i;
  r ← index red_top i;
  if decide (fe_doc f = re_doc r) then Ok mismatches
  else Ok (mismatches ++
             [{| m_rank := i + 1;
                 m_full_doc := fe_doc f; m_full_score := fe_score f;
                 m_recon_doc := re_doc r; m_recon_score := re_score r |}]).

Definition diff (full_top : list full_entry) (red_top : list recon_entry)
  : result (list mismatch) :=
  for_each (diff_step full_top red_top) []
    (seq 0 (min (length full_top) (length red_top))).

(** What a run writes: the two ranked lists, the mismatches and the
    verdict of the report ([true] for PASS). *)
Record outcome := {
  full_top : list full_entry;
  red_top : list recon_entry;
  mismatches : list mismatch;
  status_pass : bool
}.

Definition report (ft : list full_entry) (rt : list recon_entry)
    (ms : list mismatch) : outcome :=
  {| full_top := ft; red_top := rt; mismatches := ms;
     status_pass := match ms with [] => true | _ => false end |}.

End Ranking.

Arguments full_entry F : clear implicits.
Arguments recon_entry F : clear implicits.
Arguments mismatch F : clear implicits.
Arguments outcome F : clear implicits.

(** ** Statistics and scoring *)

(** The tuple [(toks, dl, N, avgdl, df)] returned by [build_full_stats]. *)
Record corpus_stats := {
  st_toks : list (list string);
  st_dl : list nat;
  st_N : nat;
  st_avgdl : R;
  st_df : gmap string nat
}.

(** [(sum(dl) / N) if N else 0.0], as an exact quotient. *)
Definition mean_length (dl : list nat) (N : nat) : R :=
  if N =? 0 then 0.0%R else (INR (sum_list dl) / INR N)%R.

Definition build_full_stats (full_docs : list string) : corpus_stats :=
  let toks := map tokenize full_docs in
  let dl := map length toks in
  let N := length toks in
  let avgdl := mean_length dl N in
  let df := foldl update_set ∅ toks in
  {| st_toks := toks; st_dl := dl; st_N := N; st_avgdl := avgdl; st_df := df |}.

(** [n + 0.5] is at least a half and the argument of [math.log] is
    [(N + 1) / (n + 0.5)], which is positive: [idf] raises nothing. *)
Definition idf (term : string) (N : nat) (df : gmap string nat) : R :=
  let n := get df term 0 in
  ln ((INR N - INR n + 0.5) / (INR n + 0.5) + 1.0)%R.

(** [x / y] on floats raises when [y] is zero.  The test here is on the
    exact value.  With avgdl >= 0 the divisor of the scorer is above zero in
    binary64 as it is here; with avgdl < 0 a divisor can round to zero, or
    away from it, and [B64.score_step] has the test of the code. *)
Definition float_div (x y : R) : result R :=
  if Req_dec_T y 0 then Raise ZeroDivisionError else Ok (x / y)%R.

(** [dl / avgdl if avgdl else 0.0] *)
Definition length_ratio (dl : nat) (avgdl : R) : R :=
  if Req_dec_T avgdl 0 then 0.0%R else (INR dl / avgdl)%R.

Definition k1_default : R := 1.2%R.
Definition b_default : R := 0.75%R.

(** The body of the loop over the query terms. *)
Definition score_step (tf : gmap string nat) (dl N : nat) (avgdl : R)
    (df : gmap string nat) (k1 b : R) (s : R) (q : string) : result R :=
  let f := get tf q 0 in
  if f =? 0 then Ok s
  else
    let denom := (INR f + k1 * (1.0 - b + b * length_ratio dl avgdl))%R in
    w ← float_div (INR f * (k1 + 1.0))%R denom;
    Ok (s + idf q N df * w)%R.

Definition bm25_score_doc (doc_tokens q_terms : list string) (N : nat)
    (avgdl : R) (df : gmap string nat) (k1 b : R) : result R :=
  let tf := Counter doc_tokens in
  let dl := length doc_tokens in
  for_each (score_step tf dl N avgdl df k1 b) 0.0%R q_terms.

(** [tools/bm25_equiv.py]: statistics and scores of one corpus in one
    function; [idf] is its inner function, closed over [N] and [df]. *)
Definition bm25_scores (docs query_terms : list string) (k1 b : R)
  : result (list R * gmap string nat * R) :=
  let N := length docs in
  let toks := map tokenize docs in
  let dl := map length toks in
  let avgdl := mean_length dl N in
  let df := foldl update_set ∅ toks in
  let idf term :=
    let n := get df term 0 in
    ln ((INR N - INR n + 0.5) / (INR n + 0.5) + 1.0)%R in
  scores ← map_result
    (fun it : nat * list string =>
       let tf := Counter it.2 in
       for_each
         (fun (s : R) (q : string) =>
            let f := get tf q 0 in
            if f =? 0 then Ok s
            else
              dli ← index dl it.1;
              let denom :=
                (INR f + k1 * (1.0 - b + b * length_ratio dli avgdl))%R in
              w ← float_div (INR f * (k1 + 1.0))%R denom;
              Ok (s + idf q * w)%R)
         0.0%R query_terms)
    (enumerate toks);
  Ok (scores, df, avgdl).

(** ** The two programs *)

(** [[norm_ws_lower(x) for x in lines if x.strip()]] *)
Definition load_corpus (lines : list string) : list string :=
  map norm_ws_lower
    (filter (fun x => strip (list_ascii_of_string x) <> []) lines).

(** [for q in args.q: q_terms += tokenize(q)] *)
Definition query_terms (qs : list string) : list string :=
  foldl (fun q_terms q => q_terms ++ tokenize q) [] qs.

Module Strict.

(** Scoring, selection, reconstruction and comparison with the
    statistics of FULL. *)
Definition compare (full_docs red_docs : list string)
    (counts_map : gmap string Z) (q_terms : list string) (k : Z)
  : result (outcome R) :=
  let st := build_full_stats full_docs in
  full_scores ← map_result
    (fun i => t ← index (st_toks st) i;
              bm25_score_doc t q_terms (st_N st) (st_avgdl st) (st_df st)
                k1_default b_default)
    (seq 0 (length full_docs));
  red_scores ← map_result
    (fun d => bm25_score_doc (tokenize d) q_terms (st_N st) (st_avgdl st)
                (st_df st) k1_default b_default)
    red_docs;
  ft ← topk_docs full_docs full_scores k;
  rt ← topk_reconstructed red_docs red_scores counts_map k;
  ms ← diff ft rt;
  Ok (report ft rt ms).

Definition main (full_lines red_lines : list string)
    (counts_map : gmap string Z) (qs : list string) (k : Z)
  : result (outcome R) :=
  compare (load_corpus full_lines) (load_corpus red_lines) counts_map
    (query_terms qs) k.

End Strict.

Module Equiv.

(** Each corpus is scored with its own statistics. *)
Definition compare (full_docs red_docs : list string)
    (counts_map : gmap string Z) (q_terms : list string) (k : Z)
  : result (outcome R) :=
  full ← bm25_scores full_docs q_terms k1_default b_default;
  red ← bm25_scores red_docs q_terms k1_default b_default;
  ft ← topk_full full_docs full.1.1 k;
  rt ← topk_reconstructed red_docs red.1.1 counts_map k;
  ms ← diff ft rt;
  Ok (report ft rt ms).

Definition main (full_lines red_lines : list string)
    (counts_map : gmap string Z) (qs : list string) (k : Z)
  : result (outcome R) :=
  compare (load_corpus full_lines) (load_corpus red_lines) counts_map
    (query_terms qs) k.

End Equiv.

(** ** The scoring formula in the words of the specification *)

(** Raw frequency of [q] in the document. *)
Definition freq (q : string) (doc_tokens : list string) : nat :=
  count_occ String.string_dec doc_tokens q.

(** [df[q]], which is 0 for an unseen term. *)
Definition df_of (df : gmap string nat) (q : string) : nat :=
  match df !! q with
  | Some n => n
  | None => 0
  end.

(** [idf(q) = ln((N - df[q] + 0.5) / (df[q] + 0.5) + 1.0)] *)
Definition idf_formula (N : nat) (df : gmap string nat) (q : string) : R :=
  ln ((INR N - INR (df_of df q) + 0.5) / (INR (df_of df q) + 0.5) + 1.0)%R.

(** [doclen/avgdl], taken to be 0 when [avgdl] is 0. *)
Definition ratio_formula (doclen : nat) (avgdl : R) : R :=
  if Req_dec_T avgdl 0 then 0%R else (INR doclen / avgdl)%R.

(** [f + k1*(1 - b + b*(doclen/avgdl))] *)
Definition denominator (f doclen : nat) (avgdl k1 b : R) : R :=
  (INR f + k1 * (1 - b + b * ratio_formula doclen avgdl))%R.

(** What one query term adds: nothing when it does not occur. *)
Definition contribution (doc_tokens : list string) (N : nat) (avgdl : R)
    (df : gmap string nat) (k1 b : R) (q : string) : R :=
  let f := freq q doc_tokens in
  if f =? 0 then 0%R
  else (idf_formula N df q
        * (INR f * (k1 + 1) / denominator f (length doc_tokens) avgdl k1 b))%R.

(** The sum over the query terms, in their order, repeated terms
    included. *)
Definition bm25_formula (doc_tokens q_terms : list string) (N : nat)
    (avgdl : R) (df : gmap string nat) (k1 b : R) : R :=
  fold_left Rplus (map (contribution doc_tokens N avgdl df k1 b) q_terms) 0%R.

(** No query term that occurs in the document has a denominator equal
    to zero. *)
Definition formula_defined (doc_tokens q_terms : list string) (avgdl k1 b : R)
  : bool :=
  forallb
    (fun q =>
       let f := freq q doc_tokens in
       (f =? 0)
       || (if Req_dec_T (denominator f (length doc_tokens) avgdl k1 b) 0
           then false else true))
    q_terms.

(** The result of the scorer in closed form: the sum where no division
    is by zero, the exception of the code otherwise. *)
Definition bm25_spec (doc_tokens q_terms : list string) (N : nat)
    (avgdl : R) (df : gmap string nat) (k1 b : R) : result R :=
  if formula_defined doc_tokens q_terms avgdl k1 b
  then Ok (bm25_formula doc_tokens q_terms N avgdl df k1 b)
  else Raise ZeroDivisionError.


(** The part of the denominator that does not depend on the frequency. *)
Definition length_penalty (doclen : nat) (avgdl k1 b : R) : R :=
  (k1 * (1 - b + b * ratio_formula doclen avgdl))%R.

(** ** Ranked lists, as values *)

Section RankedLists.
Context {F : Type} `{PyFloat F}.

(** The sort key of every index when scores and documents are parallel. *)
Definition keyed (docs : list string) (scores : list F)
  : list (F * string * nat) :=
  zip (zip scores docs) (seq 0 (length docs)).

(** The documents with their scores, in the order of the sort. *)
Definition ranking (docs : list string) (scores : list F)
  : list (F * string) :=
  fst <$> sort_desc (keyed docs scores).

(** The order of keys with their indices. *)
Definition triple_ge (x y : F * string * nat) : Prop := key_ge x.1 y.1.

(** Ranks count from 1 in list order. *)
Definition full_entries (l : list (F * string * nat)) : list (full_entry F) :=
  imap (fun r x => {| fe_rank := r + 1; fe_score := x.1.1;
                      fe_doc := x.1.2; fe_i := x.2 |}) l.

Definition recon_entries (l : list (F * string)) : list (recon_entry F) :=
  imap (fun r x => {| re_rank := r + 1; re_score := x.1; re_doc := x.2 |}) l.

(** Steps 2 and 3 of the reconstruction as the specification words them:
    walk the ordered unique documents; each one, of multiplicity
    [c = count_map.get(doc, 1)], gives [min(c, remaining)] consecutive
    entries with its score; stop once no slot remains, without a look at
    the documents that follow. *)
Fixpoint walk (counts_map : gmap string Z) (remaining : nat)
    (order : list (F * string)) : list (F * string) :=
  match order with
  | [] => []
  | x :: order' =>
      match remaining with
      | 0 => []
      | _ =>
          let c := get counts_map x.2 1%Z in
          let n := Z.to_nat (Z.min c (Z.of_nat remaining)) in
          replicate n x ++ walk counts_map (remaining - n) order'
      end
  end.

(** Every unique document repeated as often as the count map says. *)
Definition expand_all (counts_map : gmap string Z) (order : list (F * string))
  : list (F * string) :=
  flat_map (fun x => replicate (Z.to_nat (get counts_map x.2 1%Z)) x) order.

(** The total of the counted occurrences of the unique documents. *)
Definition total_count (counts_map : gmap string Z) (unique_docs : list string)
  : Z :=
  foldr Z.add 0%Z (map (fun d => get counts_map d 1%Z) unique_docs).

End RankedLists.


(** ** Deduplication *)

(** The number of times [d] occurs in a corpus. *)
Definition occurrences (d : string) (corpus : list string) : nat :=
  count_occ String.string_dec corpus d.

(** REDUCED lists exactly the distinct documents of FULL, and the count
    map gives each of them its number of occurrences in FULL. *)
Definition exact_dedup (full_docs red_docs : list string)
    (counts_map : gmap string Z) : Prop :=
  NoDup red_docs
  /\ (forall d, d ∈ red_docs <-> d ∈ full_docs)
  /\ (forall d, d ∈ red_docs ->
        counts_map !! d = Some (Z.of_nat (occurrences d full_docs))).


(** ** Normal forms of text *)

(** Whitespace in [s] is made of single spaces: [prev_ws] tells that the
    character before [s] was whitespace. *)
Fixpoint well_spaced (prev_ws : bool) (s : list ascii) : bool :=
  match s with
  | [] => true
  | c :: s' =>
      if py_isspace c
      then negb prev_ws && Ascii.eqb c " "%char && well_spaced true s'
      else well_spaced false s'
  end.


(** ** Stability of the sort *)

(** Descending key order in which equal keys keep the order of their
    indices. *)
Definition stable_ge {F : Type} `{PyFloat F} (x y : F * string * nat) : Prop :=
  triple_ge x y /\ (x.1 = y.1 -> x.2 < y.2).


(** ** The comparison as a comprehension *)

(** The mismatch records of the positions [l], in their order. *)
Definition diff_list {F : Type} (ft : list (full_entry F))
    (rt : list (recon_entry F)) (l : list nat) : list (mismatch F) :=
  flat_map
    (fun i =>
       match ft !! i, rt !! i with
       | Some f, Some r =>
           if decide (fe_doc f = re_doc r) then []
           else [{| m_rank := i + 1;
                    m_full_doc := fe_doc f; m_full_score := fe_score f;
                    m_recon_doc := re_doc r; m_recon_score := re_score r |}]
       | _, _ => []
       end) l.


(** ** The score as a function of the document *)

(** The value of the scoring formula for document [d] against the
    statistics of the corpus [stats_docs]. *)
Definition corpus_score (stats_docs q_terms : list string) (d : string) : R :=
  let st := build_full_stats stats_docs in
  bm25_formula (tokenize d) q_terms (st_N st) (st_avgdl st) (st_df st)
    k1_default b_default.


(** ** One query term in binary64

    The scores above are exact reals.  What the code adds for one query
    term is also written here in binary64, on primitive floats, from the
    frequency [f = tf.get(q, 0)] and the length [dl = len(doc_tokens)].
    [math.log] belongs to the C library, so the value of [idf(q, N, df)] is an
    argument of the step and only the argument that [math.log] receives is
    computed. *)

Module B64.

(** [float(n)] for an int with [|n| < 2^63]. *)
Definition of_int (n : Z) : float :=
  if (n <? 0)%Z then PrimFloat.opp (PrimFloat.of_uint63 (Uint63.of_Z (- n)))
  else PrimFloat.of_uint63 (Uint63.of_Z n).

(** [1.2] and [0.75] as the floats that Python reads. *)
Definition k1 : float := 0x1.3333333333333p+0%float.
Definition b : float := 0x1.8p-1%float.



(** [dl / avgdl if avgdl else 0.0]: zero of either sign is false. *)
Definition length_ratio (dl : Z) (avgdl : float) : float :=
  if PrimFloat.eqb avgdl 0%float then 0%float
  else (of_int dl / avgdl)%float.

(** [denom = f + k1 * (1.0 - b + b * (...))] *)
Definition denom (f dl : Z) (avgdl k1 b : float) : float :=
  (of_int f + k1 * (1 - b + b * length_ratio dl avgdl))%float.

(** The body of the loop over the query terms, with [idf_q] for the value
    of [idf(q, N, df)]. *)
Definition score_step (idf_q : float) (f dl : Z) (avgdl k1 b s : float)
  : result float :=
  if (f =? 0)%Z then Ok s
  else
    let d := denom f dl avgdl k1 b in
    if PrimFloat.eqb d 0%float then Raise ZeroDivisionError
    else Ok (s + idf_q * (of_int f * (k1 + 1) / d))%float.

End B64.


(** * Properties *)

Example norm_ws_lower_ex :
  norm_ws_lower "  Cat   DOG " = "cat dog".
Proof. reflexivity. Qed.

Example tokenize_ex :
  tokenize "Cat-dog, x86!" = ["cat"; "dog"; "x86"].
Proof. reflexivity. Qed.

Example topk_docs_ex :
  fe_doc <$> (match topk_docs ["b"; "a"; "c"; "a"] [1; 2; 1; 2]%Z 3 with Ok l => l | _ => [] end)
  = ["a"; "a"; "c"].
Proof. vm_compute. reflexivity. Qed.

(** ** Normalization *)

Lemma py_isspace_lower c : py_isspace (py_lower c) = py_isspace c.
Proof. destruct c as [[] [] [] [] [] [] [] []]; reflexivity. Qed.

Lemma py_lower_idem c : py_lower (py_lower c) = py_lower c.
Proof. destruct c as [[] [] [] [] [] [] [] []]; reflexivity. Qed.

Lemma collapse_ws_length b s : length (collapse_ws b s) <= length s.
Proof.
  revert b. induction s as [|c s IH]; intros b; simpl; [lia|].
  destruct (py_isspace c); [destruct b|]; simpl;
    [specialize (IH true) | specialize (IH true) | specialize (IH false)]; lia.
Qed.

Lemma collapse_ws_idem b s :
  collapse_ws b (collapse_ws b s) = collapse_ws b s.
Proof.
  revert b. induction s as [|c s IH]; intros b; simpl; [done|].
  destruct (py_isspace c) eqn:Hc.
  - destruct b; [apply IH|]. simpl. by rewrite IH.
  - simpl. rewrite Hc. by rewrite IH.
Qed.

(** A fixed point of the collapse that is read inside a run does not start
    with whitespace. *)
Lemma collapse_fixed_true_head c s :
  collapse_ws true (c :: s) = c :: s -> py_isspace c = false.
Proof.
  simpl. destruct (py_isspace c); [|done]. intros Heq.
  pose proof (collapse_ws_length true s) as Hlen.
  rewrite Heq in Hlen. simpl in Hlen. lia.
Qed.

Lemma collapse_fixed_weaken s :
  collapse_ws true s = s -> collapse_ws false s = s.
Proof.
  destruct s as [|c s]; [done|]. intros Heq.
  pose proof (collapse_fixed_true_head _ _ Heq) as Hc.
  simpl in *. by rewrite Hc in *.
Qed.

Lemma lstrip_fixed_true s : collapse_ws true s = s -> lstrip s = s.
Proof.
  destruct s as [|c s]; [done|]. intros Heq.
  simpl. by rewrite (collapse_fixed_true_head _ _ Heq).
Qed.

Lemma collapse_fixed_lstrip s :
  collapse_ws false s = s -> collapse_ws false (lstrip s) = lstrip s.
Proof.
  destruct s as [|c s]; [done|]. simpl.
  destruct (py_isspace c) eqn:Hc.
  - intros [= _ Heq]. rewrite (lstrip_fixed_true _ Heq).
    by apply collapse_fixed_weaken.
  - intros Heq. simpl. by rewrite Hc.
Qed.

Lemma collapse_fixed_rstrip b s :
  collapse_ws b s = s -> collapse_ws b (rstrip s) = rstrip s.
Proof.
  revert b. induction s as [|c s IH]; intros b; [done|].
  intros Heq. simpl.
  destruct (py_isspace c) eqn:Hc.
  - destruct b.
    { by rewrite (collapse_fixed_true_head _ _ Heq) in Hc. }
    simpl in Heq. rewrite Hc in Heq. injection Heq as Hsp Heq.
    specialize (IH true Heq).
    destruct (rstrip s) as [|a r]; [done|].
    simpl. rewrite Hc. simpl in IH. by rewrite IH, Hsp.
  - simpl in Heq. rewrite Hc in Heq. injection Heq as Heq.
    specialize (IH false Heq).
    destruct (rstrip s) as [|a r]; simpl; rewrite Hc; [done|].
    simpl in IH. by rewrite IH.
Qed.

Lemma rstrip_idem s : rstrip (rstrip s) = rstrip s.
Proof.
  induction s as [|c s IH]; [done|]. simpl.
  destruct (rstrip s) as [|a r] eqn:Hr.
  - destruct (py_isspace c) eqn:Hc; [done|]. simpl. by rewrite Hc.
  - change (rstrip (c :: a :: r)) with
      (match rstrip (a :: r) with
       | [] => if py_isspace c then [] else [c]
       | x :: r' => c :: x :: r'
       end).
    by rewrite IH.
Qed.

Lemma lstrip_rstrip_head c s :
  py_isspace c = false -> lstrip (rstrip (c :: s)) = rstrip (c :: s).
Proof.
  intros Hc. simpl. destruct (rstrip s); rewrite ?Hc; simpl; by rewrite Hc.
Qed.

Lemma strip_idem s : strip (strip s) = strip s.
Proof.
  unfold strip.
  assert (lstrip (rstrip (lstrip s)) = rstrip (lstrip s)) as ->;
    [|apply rstrip_idem].
  induction s as [|c s IH]; [done|].
  simpl. destruct (py_isspace c) eqn:Hc; [done|].
  by apply lstrip_rstrip_head.
Qed.

Lemma collapse_ws_lower b s :
  collapse_ws b (lower s) = lower (collapse_ws b s).
Proof.
  revert b. induction s as [|c s IH]; intros b; simpl; [done|].
  rewrite py_isspace_lower.
  destruct (py_isspace c); [destruct b|]; simpl; by rewrite IH.
Qed.

Lemma lstrip_lower s : lstrip (lower s) = lower (lstrip s).
Proof.
  induction s as [|c s IH]; simpl; [done|].
  rewrite py_isspace_lower. by destruct (py_isspace c).
Qed.

Lemma rstrip_lower s : rstrip (lower s) = lower (rstrip s).
Proof.
  induction s as [|c s IH]; simpl; [done|].
  rewrite IH, py_isspace_lower.
  destruct (rstrip s); simpl; [by destruct (py_isspace c)|done].
Qed.

Lemma lower_idem s : lower (lower s) = lower s.
Proof.
  unfold lower. rewrite map_map. apply map_ext, py_lower_idem.
Qed.

Lemma norm_chars_idem s : norm_chars (norm_chars s) = norm_chars s.
Proof.
  unfold norm_chars, strip.
  rewrite collapse_ws_lower, lstrip_lower, rstrip_lower, lower_idem.
  f_equal.
  set (c := collapse_ws false s).
  assert (collapse_ws false (rstrip (lstrip c)) = rstrip (lstrip c)) as ->.
  { apply collapse_fixed_rstrip, collapse_fixed_lstrip, collapse_ws_idem. }
  apply strip_idem.
Qed.

(** C9. Normalization (collapse every run of whitespace to one space,
    strip leading and trailing whitespace, lower-case) is idempotent:
    normalizing a normalized string changes nothing. *)
Theorem norm_ws_lower_idempotent (s : string) :
  norm_ws_lower (norm_ws_lower s) = norm_ws_lower s.
Proof.
  unfold norm_ws_lower.
  by rewrite list_ascii_of_string_of_list_ascii, norm_chars_idem.
Qed.

(** ** The result monad *)

Lemma map_result_ok {A B} (f : A -> result B) (g : A -> B) (l : list A) :
  (forall x, x ∈ l -> f x = Ok (g x)) -> map_result f l = Ok (g <$> l).
Proof.
  induction l as [|x l IH]; intros Hf; csimpl; [done|].
  rewrite Hf by left. simpl. rewrite IH; [done|].
  intros y Hy. apply Hf. by right.
Qed.

Lemma map_result_ext {A B} (f g : A -> result B) (l : list A) :
  (forall x, x ∈ l -> f x = g x) -> map_result f l = map_result g l.
Proof.
  induction l as [|x l IH]; intros Hf; simpl; [done|].
  rewrite Hf by left. rewrite IH; [done|].
  intros y Hy. apply Hf. by right.
Qed.

Lemma index_lookup {A} (l : list A) i x : l !! i = Some x -> index l i = Ok x.
Proof. unfold index. by intros ->. Qed.

(** ** Counters *)

Lemma incr_lookup x c q :
  default 0 (incr x c !! q)
  = default 0 (c !! q) + (if String.string_dec q x then 1 else 0).
Proof.
  unfold incr. destruct (String.string_dec q x) as [->|Hne].
  - rewrite lookup_insert_eq. simpl. lia.
  - rewrite lookup_insert_ne by done. lia.
Qed.

Lemma Counter_from c doc q :
  default 0 (foldl (fun c x => incr x c) c doc !! q)
  = default 0 (c !! q) + freq q doc.
Proof.
  revert c. induction doc as [|x doc IH]; intros c; simpl; [lia|].
  rewrite IH, incr_lookup. unfold freq. simpl.
  destruct (String.string_dec x q), (String.string_dec q x); try congruence; lia.
Qed.

Lemma Counter_get doc q : get (Counter doc) q 0 = freq q doc.
Proof.
  unfold get, Counter. rewrite Counter_from, lookup_empty. simpl. lia.
Qed.

Lemma get_df_of df q : get df q 0 = df_of df q.
Proof. unfold get, df_of. by destruct (df !! q). Qed.

(** ** The scorer *)

Section Scoring.
Local Open Scope R_scope.

Lemma idf_idf_formula q N df : idf q N df = idf_formula N df q.
Proof. unfold idf, idf_formula. by rewrite get_df_of. Qed.

Lemma length_ratio_formula dl avgdl :
  length_ratio dl avgdl = ratio_formula dl avgdl.
Proof.
  unfold length_ratio, ratio_formula. destruct (Req_dec_T avgdl 0); lra.
Qed.

Lemma score_step_spec doc N avgdl df k1 b s q :
  score_step (Counter doc) (length doc) N avgdl df k1 b s q
  = if (freq q doc =? 0)%nat then Ok s
    else if Req_dec_T (denominator (freq q doc) (length doc) avgdl k1 b) 0
         then Raise ZeroDivisionError
         else Ok (s + contribution doc N avgdl df k1 b q).
Proof.
  unfold score_step, contribution. rewrite Counter_get.
  destruct (freq q doc =? 0)%nat; [done|].
  unfold float_div, denominator. rewrite length_ratio_formula.
  replace (1.0 - b) with (1 - b) by lra.
  destruct (Req_dec_T _ 0); simpl; [done|].
  rewrite idf_idf_formula.
  by replace (k1 + 1.0) with (k1 + 1) by lra.
Qed.

Lemma score_loop_spec doc q_terms N avgdl df k1 b s :
  for_each (score_step (Counter doc) (length doc) N avgdl df k1 b) s q_terms
  = if formula_defined doc q_terms avgdl k1 b
    then Ok (fold_left Rplus (map (contribution doc N avgdl df k1 b) q_terms) s)
    else Raise ZeroDivisionError.
Proof.
  revert s. induction q_terms as [|q qs IH]; intros s; simpl; [done|].
  rewrite score_step_spec.
  destruct (freq q doc =? 0)%nat eqn:Hf; simpl.
  - assert (contribution doc N avgdl df k1 b q = 0) as ->
      by (unfold contribution; by rewrite Hf).
    by rewrite IH, Rplus_0_r.
  - destruct (Req_dec_T _ 0); simpl; [done|]. by rewrite IH.
Qed.

Lemma bm25_score_doc_spec doc q_terms N avgdl df k1 b :
  bm25_score_doc doc q_terms N avgdl df k1 b
  = bm25_spec doc q_terms N avgdl df k1 b.
Proof.
  unfold bm25_score_doc, bm25_spec, bm25_formula.
  rewrite score_loop_spec. by replace 0.0 with 0 by lra.
Qed.

Lemma fold_left_Rplus_acc l s :
  fold_left Rplus l s = s + fold_left Rplus l 0.
Proof.
  revert s. induction l as [|x l IH]; intros s; simpl; [lra|].
  rewrite (IH (s + x)), (IH (0 + x)). lra.
Qed.

Lemma sum_contributions_cons {A} (g : A -> R) x l :
  fold_left Rplus (map g (x :: l)) 0 = g x + fold_left Rplus (map g l) 0.
Proof. simpl. rewrite fold_left_Rplus_acc. lra. Qed.


Lemma sum_contributions_nonneg {A} (g : A -> R) l :
  (forall x, x ∈ l -> 0 <= g x) -> 0 <= fold_left Rplus (map g l) 0.
Proof.
  induction l as [|x l IH]; intros Hle; [simpl; lra|].
  rewrite sum_contributions_cons.
  apply Rplus_le_le_0_compat; [apply Hle; by left|].
  apply IH. intros y Hy. apply Hle. by right.
Qed.

Lemma sum_contributions_zero {A} (g : A -> R) l :
  (forall x, x ∈ l -> 0 <= g x) ->
  fold_left Rplus (map g l) 0 = 0 <-> (forall x, x ∈ l -> g x = 0).
Proof.
  induction l as [|x l IH]; intros Hle.
  { simpl. split; [intros _ y Hy; inv Hy|done]. }
  rewrite sum_contributions_cons.
  assert (0 <= g x) as Hx by (apply Hle; by left).
  assert (forall y, y ∈ l -> 0 <= g y) as Hl by (intros y Hy; apply Hle; by right).
  pose proof (sum_contributions_nonneg g l Hl) as Hs.
  specialize (IH Hl). split.
  - intros Hsum y Hy. inv Hy; [lra|].
    apply IH; [lra|done].
  - intros Hz. rewrite (Hz x) by left.
    assert (fold_left Rplus (map g l) 0 = 0) as ->; [|lra].
    apply IH. intros y Hy. apply Hz. by right.
Qed.

(** With [df[q] <= N] the argument of the logarithm is at least 1. *)
Lemma idf_formula_nonneg N df q :
  (df_of df q <= N)%nat -> 0 <= idf_formula N df q.
Proof.
  intros Hle. unfold idf_formula.
  apply le_INR in Hle.
  pose proof (pos_INR (df_of df q)) as Hn.
  set (n := INR (df_of df q)) in *.
  assert (0 <= (INR N - n + 0.5) / (n + 0.5)) as Hq.
  { apply Rmult_le_pos; [lra|]. apply Rlt_le, Rinv_0_lt_compat. lra. }
  destruct (Req_dec_T ((INR N - n + 0.5) / (n + 0.5) + 1.0) 1) as [->|Hne].
  - rewrite ln_1. lra.
  - rewrite <- ln_1. apply Rlt_le, ln_increasing; lra.
Qed.

Lemma idf_formula_pos N df q :
  (df_of df q <= N)%nat -> 0 < idf_formula N df q.
Proof.
  intros Hle. unfold idf_formula.
  apply le_INR in Hle.
  pose proof (pos_INR (df_of df q)) as Hn.
  set (n := INR (df_of df q)) in *.
  assert (0 < (INR N - n + 0.5) / (n + 0.5)) as Hq.
  { apply Rmult_lt_0_compat; [lra|]. apply Rinv_0_lt_compat. lra. }
  rewrite <- ln_1. apply ln_increasing; lra.
Qed.

Lemma ratio_formula_nonneg dl avgdl : 0 <= avgdl -> 0 <= ratio_formula dl avgdl.
Proof.
  intros Ha. unfold ratio_formula. destruct (Req_dec_T avgdl 0); [lra|].
  apply Rmult_le_pos; [apply pos_INR|].
  apply Rlt_le, Rinv_0_lt_compat. lra.
Qed.

Lemma length_penalty_default_pos dl avgdl :
  0 <= avgdl -> 0 < length_penalty dl avgdl k1_default b_default.
Proof.
  intros Ha. pose proof (ratio_formula_nonneg dl avgdl Ha) as Hr.
  unfold length_penalty, k1_default, b_default. nra.
Qed.

Lemma denominator_default_pos f dl avgdl :
  0 <= avgdl -> 0 < denominator f dl avgdl k1_default b_default.
Proof.
  intros Ha. pose proof (length_penalty_default_pos dl avgdl Ha) as Hp.
  pose proof (pos_INR f). unfold denominator, length_penalty in *. lra.
Qed.

Lemma formula_defined_default doc q_terms avgdl :
  0 <= avgdl -> formula_defined doc q_terms avgdl k1_default b_default = true.
Proof.
  intros Ha. unfold formula_defined. apply forallb_forall. intros q _.
  apply orb_true_iff. right.
  pose proof (denominator_default_pos (freq q doc) (length doc) avgdl Ha).
  destruct (Req_dec_T _ 0); [lra|done].
Qed.

(** With statistics of a corpus the scorer raises nothing. *)
Lemma bm25_score_doc_ok doc q_terms N avgdl df :
  0 <= avgdl ->
  bm25_score_doc doc q_terms N avgdl df k1_default b_default
  = Ok (bm25_formula doc q_terms N avgdl df k1_default b_default).
Proof.
  intros Ha. rewrite bm25_score_doc_spec. unfold bm25_spec.
  by rewrite formula_defined_default.
Qed.

Lemma contribution_nonneg doc N avgdl df q :
  0 <= avgdl -> (df_of df q <= N)%nat ->
  0 <= contribution doc N avgdl df k1_default b_default q.
Proof.
  intros Ha Hdf. unfold contribution.
  destruct (freq q doc =? 0)%nat; [lra|].
  apply Rmult_le_pos; [by apply idf_formula_nonneg|].
  apply Rmult_le_pos.
  - apply Rmult_le_pos; [apply pos_INR|]. unfold k1_default. lra.
  - apply Rlt_le, Rinv_0_lt_compat. by apply denominator_default_pos.
Qed.

Lemma contribution_pos doc N avgdl df q :
  0 <= avgdl -> (df_of df q <= N)%nat -> freq q doc <> 0%nat ->
  0 < contribution doc N avgdl df k1_default b_default q.
Proof.
  intros Ha Hdf Hf. unfold contribution.
  apply Nat.eqb_neq in Hf as Hf'. rewrite Hf'.
  apply Rmult_lt_0_compat; [by apply idf_formula_pos|].
  apply Rmult_lt_0_compat.
  - apply Rmult_lt_0_compat; [|unfold k1_default; lra].
    apply lt_0_INR. lia.
  - apply Rinv_0_lt_compat. by apply denominator_default_pos.
Qed.

Lemma contribution_zero doc N avgdl df k1 b q :
  freq q doc = 0%nat -> contribution doc N avgdl df k1 b q = 0.
Proof. intros Hf. unfold contribution. by rewrite Hf. Qed.

(** With statistics of a corpus the score is 0 exactly when no query term
    occurs in the document. *)
Lemma bm25_formula_zero_iff doc q_terms N avgdl df :
  0 <= avgdl -> (forall q, q ∈ q_terms -> (df_of df q <= N)%nat) ->
  bm25_formula doc q_terms N avgdl df k1_default b_default = 0
  <-> (forall q, q ∈ q_terms -> freq q doc = 0%nat).
Proof.
  intros Ha Hdf. unfold bm25_formula.
  rewrite sum_contributions_zero
    by (intros q Hq; apply contribution_nonneg; auto).
  split; intros Hz q Hq.
  - destruct (decide (freq q doc = 0%nat)) as [|Hne]; [done|].
    pose proof (contribution_pos doc N avgdl df q Ha (Hdf q Hq) Hne).
    specialize (Hz q Hq). lra.
  - apply contribution_zero. auto.
Qed.

Lemma frac_le x y z w : 0 < y -> 0 < w -> x * w <= z * y -> x / y <= z / w.
Proof.
  intros Hy Hw Hle.
  apply (Rmult_le_reg_r (y * w)); [nra|].
  replace (x / y * (y * w)) with (x * w) by (field; lra).
  replace (z / w * (y * w)) with (z * y) by (field; lra).
  done.
Qed.


End Scoring.

Section ScoringClaims.
Local Open Scope R_scope.

Lemma for_each_ext {A S} (f g : S -> A -> result S) s l :
  (forall s x, x ∈ l -> f s x = g s x) -> for_each f s l = for_each g s l.
Proof.
  revert s. induction l as [|x l IH]; intros s Hfg; simpl; [done|].
  rewrite Hfg by left. destruct (g s x); simpl; [|done].
  apply IH. intros s' y Hy. apply Hfg. by right.
Qed.

Lemma map_result_map {A B C} (h : A -> B) (f : B -> result C) l :
  map_result f (map h l) = map_result (fun x => f (h x)) l.
Proof. induction l as [|x l IH]; simpl; [done|]. by rewrite IH. Qed.

Lemma elem_of_enumerate {A} (l : list A) i x :
  (i, x) ∈ enumerate l -> l !! i = Some x.
Proof.
  unfold enumerate. intros Hin.
  apply list_elem_of_lookup in Hin as [j Hj].
  apply lookup_zip_with_Some in Hj as (a & y & [= <- <-] & Ha & Hy).
  apply lookup_seq in Ha as [-> _]. done.
Qed.

Lemma map_result_enumerate {A B} (f : nat * A -> result B) (g : A -> result B)
    (l : list A) :
  (forall i x, l !! i = Some x -> f (i, x) = g x) ->
  map_result f (enumerate l) = map_result g l.
Proof.
  intros Hfg. unfold enumerate.
  assert (forall a k, (forall i x, k !! i = Some x -> f ((a + i)%nat, x) = g x) ->
            map_result f (zip (seq a (length k)) k) = map_result g k) as Hgen.
  { intros a k. revert a. induction k as [|x k IH]; intros a Hk; simpl; [done|].
    rewrite <- (Hk 0%nat x eq_refl), Nat.add_0_r.
    rewrite (IH (S a)); [done|].
    intros i y Hy. rewrite <- (Hk (S i) y Hy). f_equal. f_equal. lia. }
  apply (Hgen 0%nat). intros i x Hx. by apply Hfg.
Qed.

(** The scorer of [tools/bm25_equiv.py] is the scorer of
    [tools/bm25_equiv_strict.py] run with the statistics of its own corpus. *)
Lemma bm25_scores_score_doc docs q_terms k1 b :
  bm25_scores docs q_terms k1 b
  = let st := build_full_stats docs in
    scores ← map_result
      (fun d => bm25_score_doc (tokenize d) q_terms (st_N st) (st_avgdl st)
                  (st_df st) k1 b) docs;
    Ok (scores, st_df st, st_avgdl st).
Proof.
  unfold bm25_scores, build_full_stats. cbn [st_N st_avgdl st_df].
  rewrite length_map.
  rewrite (map_result_enumerate _
    (fun t => bm25_score_doc t q_terms (length docs)
                (mean_length (map length (map tokenize docs)) (length docs))
                (foldl update_set ∅ (map tokenize docs)) k1 b)).
  { by rewrite map_result_map. }
  intros i t Ht. cbn [fst snd]. unfold bm25_score_doc.
  apply for_each_ext. intros s q _. unfold score_step.
  destruct (get (Counter t) q 0%nat =? 0)%nat; [done|].
  assert (map length (map tokenize docs) !! i = Some (length t)) as Hdl.
  { by rewrite list_lookup_fmap, Ht. }
  by rewrite (index_lookup _ _ _ Hdl).
Qed.

End ScoringClaims.

(** ** Statistics of a corpus *)

Lemma df_of_default df q : df_of df q = default 0 (df !! q).
Proof. unfold df_of. by destruct (df !! q). Qed.

(** [df.update(set(t))] adds one for each term of [t], once. *)
Lemma update_set_df_of df t q :
  df_of (update_set df t) q
  = df_of df q + (if decide (q ∈ t) then 1 else 0).
Proof.
  unfold update_set. rewrite !df_of_default.
  assert (forall X : gset string,
            default 0 (set_fold incr df X !! q)
            = default 0 (df !! q) + (if decide (q ∈ X) then 1 else 0)) as Hfold.
  { apply (set_fold_ind_L
      (fun r X => default 0 (r !! q)
                  = default 0 (df !! q) + (if decide (q ∈ X) then 1 else 0))).
    - rewrite decide_False by set_solver. lia.
    - intros x X r Hx IH. rewrite incr_lookup, IH.
      destruct (String.string_dec q x) as [->|Hne].
      + rewrite decide_False by done. rewrite decide_True by set_solver. lia.
      + destruct (decide (q ∈ X)).
        * rewrite decide_True by set_solver. lia.
        * rewrite decide_False; [lia|].
          rewrite elem_of_union, elem_of_singleton. tauto. }
  rewrite Hfold.
  destruct (decide (q ∈ t)).
  - rewrite decide_True; [done|]. by apply elem_of_list_to_set.
  - rewrite decide_False; [done|]. by rewrite elem_of_list_to_set.
Qed.

Lemma df_bound_from df toks n q :
  df_of df q <= n -> df_of (foldl update_set df toks) q <= n + length toks.
Proof.
  revert df n. induction toks as [|t toks IH]; intros df n Hn; simpl; [lia|].
  replace (n + S (length toks)) with (S n + length toks) by lia.
  apply IH. rewrite update_set_df_of. case_decide; lia.
Qed.

(** No term occurs in more documents than the corpus has. *)
Lemma build_full_stats_df_le docs q :
  df_of (st_df (build_full_stats docs)) q <= st_N (build_full_stats docs).
Proof.
  unfold build_full_stats. cbn [st_df st_N].
  apply (df_bound_from ∅ _ 0). unfold df_of. by rewrite lookup_empty.
Qed.

Lemma mean_length_nonneg dl N : (0 <= mean_length dl N)%R.
Proof.
  unfold mean_length. destruct (N =? 0) eqn:HN; [lra|].
  apply Nat.eqb_neq in HN.
  apply Rmult_le_pos; [apply pos_INR|].
  apply Rlt_le, Rinv_0_lt_compat, lt_0_INR. lia.
Qed.

Lemma build_full_stats_avgdl_nonneg docs :
  (0 <= st_avgdl (build_full_stats docs))%R.
Proof. apply mean_length_nonneg. Qed.

Lemma build_full_stats_toks docs i d :
  docs !! i = Some d -> st_toks (build_full_stats docs) !! i = Some (tokenize d).
Proof. intros Hd. cbn. by rewrite list_lookup_fmap, Hd. Qed.

Example build_full_stats_ex :
  let st := build_full_stats ["cat dog"; "cat dog"; "bird"] in
  st_N st = 3 /\ st_dl st = [2; 2; 1]
  /\ map (df_of (st_df st)) ["cat"; "dog"; "bird"; "fish"] = [2; 2; 1; 0].
Proof. vm_compute. done. Qed.

Section ScoreProperties.
Local Open Scope R_scope.

(** Scores against the statistics of the empty corpus. *)
Lemma empty_stats_score doc q_terms :
  let st := build_full_stats [] in
  exists s,
    bm25_score_doc doc q_terms (st_N st) (st_avgdl st) (st_df st)
      k1_default b_default = Ok s
    /\ (s = 0 <-> forall q, q ∈ q_terms -> freq q doc = 0%nat).
Proof.
  intros st. pose proof (build_full_stats_avgdl_nonneg []) as Ha.
  eexists. split; [by apply bm25_score_doc_ok|].
  apply bm25_formula_zero_iff; [done|].
  intros q _. apply build_full_stats_df_le.
Qed.

(** C6 (amended). When the corpus from which statistics are built is
    empty, avgdl is 0.0, and a document scored against those statistics
    receives a score, which is 0 exactly when no query term occurs in the
    document. *)
Theorem empty_corpus_scores :
  let st := build_full_stats [] in
  st_avgdl st = 0
  /\ forall doc_tokens q_terms,
       exists s,
         bm25_score_doc doc_tokens q_terms (st_N st) (st_avgdl st) (st_df st)
           k1_default b_default = Ok s
         /\ (s = 0 <-> forall q, q ∈ q_terms -> freq q doc_tokens = 0%nat).
Proof.
  split; [cbn; unfold mean_length; simpl; lra|].
  intros doc q_terms. apply empty_stats_score.
Qed.

(** C6 as stated fails: against the statistics of the empty corpus the
    document "cat" has a score other than 0 for the query "cat". *)
Lemma empty_corpus_score_not_zero :
  let st := build_full_stats [] in
  exists s,
    bm25_score_doc (tokenize "cat") (tokenize "cat")
      (st_N st) (st_avgdl st) (st_df st) k1_default b_default = Ok s
    /\ s <> 0.
Proof.
  intros st.
  destruct (empty_stats_score (tokenize "cat") (tokenize "cat")) as (s & Hs & Hz).
  exists s. split; [done|]. intros Hs0.
  destruct Hz as [Hz _]. specialize (Hz Hs0 "cat"%string).
  assert ("cat"%string ∈ tokenize "cat") as Hin by (vm_compute; left).
  specialize (Hz Hin). vm_compute in Hz. discriminate.
Qed.

(** C2 (amended). For statistics with avgdl >= 0 and with the defaults
    k1 = 1.2 and b = 0.75 the scorer returns the sum over the query terms, in
    order and with repeated terms counted again, of
    idf(q) * f*(k1+1) / (f + k1*(1 - b + b*(doclen/avgdl))): f is the raw
    frequency of q in the document and a term with f = 0 adds nothing, idf(q)
    = ln((N - df[q] + 0.5) / (df[q] + 0.5) + 1.0) with df[q] = 0 for an
    unseen term, and doclen/avgdl is 0 when avgdl is 0.  The scorer that
    builds the statistics from its own corpus returns that sum for each of
    its documents. *)
Theorem bm25_score_is_formula (doc_tokens q_terms docs : list string)
    (N : nat) (avgdl : R) (df : gmap string nat) :
  0 <= avgdl ->
  bm25_score_doc doc_tokens q_terms N avgdl df k1_default b_default
  = Ok (bm25_formula doc_tokens q_terms N avgdl df k1_default b_default)
  /\ bm25_scores docs q_terms k1_default b_default
     = let st := build_full_stats docs in
       Ok ((fun d => bm25_formula (tokenize d) q_terms (length docs)
                       (st_avgdl st) (st_df st) k1_default b_default) <$> docs,
           st_df st, st_avgdl st).
Proof.
  intros Ha. split; [by apply bm25_score_doc_ok|].
  rewrite bm25_scores_score_doc. cbv zeta.
  pose proof (build_full_stats_avgdl_nonneg docs) as Hst.
  assert (st_N (build_full_stats docs) = length docs) as ->
    by (unfold build_full_stats; cbn; apply length_map).
  rewrite (map_result_ok _
    (fun d => bm25_formula (tokenize d) q_terms (length docs)
                (st_avgdl (build_full_stats docs))
                (st_df (build_full_stats docs)) k1_default b_default) docs)
    by (intros d _; by apply bm25_score_doc_ok).
  done.
Qed.

Lemma bm25_score_is_formula_witness :
  let docs := ["cat dog"; "cat dog"; "bird"]%string in
  bm25_score_doc ["cat"; "dog"]%string ["cat"; "cat"]%string 3 2 ∅
    k1_default b_default
  = Ok (bm25_formula ["cat"; "dog"]%string ["cat"; "cat"]%string 3 2 ∅
          k1_default b_default)
  /\ bm25_scores docs ["cat"; "cat"]%string k1_default b_default
     = let st := build_full_stats docs in
       Ok ((fun d => bm25_formula (tokenize d) ["cat"; "cat"]%string
                       (length docs) (st_avgdl st) (st_df st)
                       k1_default b_default) <$> docs,
           st_df st, st_avgdl st).
Proof.
  intros docs.
  apply (bm25_score_is_formula ["cat"; "dog"]%string ["cat"; "cat"]%string
           docs 3 2 ∅).
  lra.
Defined.

(** C2 as stated fails for a negative avgdl: for a document of 33 tokens
    with 3 occurrences of the term and avgdl = -9 the denominator
    3 + 1.2*(0.25 + 0.75*(33/-9)) is 0, in exact arithmetic and in binary64
    alike, and the scorer raises ZeroDivisionError. *)
Lemma score_raises_negative_avgdl :
  bm25_score_doc (replicate 3 "a"%string ++ replicate 30 "b"%string) ["a"%string]
    1 (-9) {["a"%string := 1%nat]} k1_default b_default
  = Raise ZeroDivisionError
  /\ (forall idf_q s,
        B64.score_step idf_q 3 33 (-9)%float B64.k1 B64.b s
        = Raise ZeroDivisionError).
Proof.
  split; [|intros idf_q s; vm_compute; reflexivity].
  rewrite bm25_score_doc_spec. unfold bm25_spec, formula_defined.
  assert (freq "a" (replicate 3 "a"%string ++ replicate 30 "b"%string) = 3%nat)
    as Hf by reflexivity.
  assert (length (replicate 3 "a"%string ++ replicate 30 "b"%string) = 33%nat)
    as Hl by reflexivity.
  assert (denominator 3 33 (-9) k1_default b_default = 0) as Hd.
  { unfold denominator, ratio_formula, k1_default, b_default.
    destruct (Req_dec_T (-9) 0); [lra|]. simpl. lra. }
  cbn [forallb]. rewrite Hf, Hl, Hd. simpl.
  destruct (Req_dec_T 0 0); [done|lra].
Qed.

(** C8 (amended). With statistics such that avgdl is not negative and
    df[q] <= N for every term, the scorer returns a score that is not
    negative, and that is exactly 0 when no query term occurs in the
    document. *)
Theorem score_nonneg doc_tokens q_terms N avgdl df :
  0 <= avgdl ->
  (forall q, (df_of df q <= N)%nat) ->
  exists s,
    bm25_score_doc doc_tokens q_terms N avgdl df k1_default b_default = Ok s
    /\ 0 <= s
    /\ ((forall q, q ∈ q_terms -> freq q doc_tokens = 0%nat) -> s = 0).
Proof.
  intros Ha Hdf. eexists. split; [by apply bm25_score_doc_ok|]. split.
  - apply sum_contributions_nonneg. intros q _.
    by apply contribution_nonneg.
  - intros Hno. apply bm25_formula_zero_iff; auto.
Qed.

Lemma score_nonneg_witness :
  let st := build_full_stats ["cat dog"; "cat dog"; "bird"]%string in
  exists s,
    bm25_score_doc (tokenize "cat dog") (tokenize "cat") (st_N st)
      (st_avgdl st) (st_df st) k1_default b_default = Ok s
    /\ 0 <= s
    /\ ((forall q, q ∈ tokenize "cat" -> freq q (tokenize "cat dog") = 0%nat)
        -> s = 0).
Proof.
  intros st.
  apply (score_nonneg (tokenize "cat dog") (tokenize "cat") (st_N st)
           (st_avgdl st) (st_df st)).
  - apply build_full_stats_avgdl_nonneg.
  - apply build_full_stats_df_le.
Defined.

(** The score for a query of one term that occurs in the document. *)
Lemma score_single_term doc q N avgdl df f n :
  freq q doc = f -> f <> 0%nat -> df_of df q = n ->
  denominator f (length doc) avgdl k1_default b_default <> 0 ->
  bm25_score_doc doc [q] N avgdl df k1_default b_default
  = Ok (ln ((INR N - INR n + 0.5) / (INR n + 0.5) + 1.0)
        * (INR f * (k1_default + 1)
           / denominator f (length doc) avgdl k1_default b_default)).
Proof.
  intros Hf Hf0 Hn Hd. rewrite bm25_score_doc_spec.
  unfold bm25_spec, formula_defined, bm25_formula, contribution, idf_formula.
  simpl. rewrite Hf, Hn. apply Nat.eqb_neq in Hf0. rewrite Hf0. simpl.
  destruct (Req_dec_T _ 0); [done|]. simpl. f_equal. lra.
Qed.

Lemma df_of_singleton (t : string) (n : nat) q :
  df_of {[t := n]} q = if decide (q = t) then n else 0%nat.
Proof.
  unfold df_of. destruct (decide (q = t)) as [->|Hne].
  - by rewrite lookup_singleton_eq.
  - by rewrite lookup_singleton_ne.
Qed.

(** C8 as stated fails: statistics with df[q] <= N for every term and a
    negative avgdl give the document "a b b b b" a negative score for the
    query "a". *)
Lemma score_negative_avgdl :
  let df : gmap string nat := {["a"%string := 1%nat]} in
  (forall q, (df_of df q <= 1)%nat)
  /\ exists s,
       bm25_score_doc ["a"; "b"; "b"; "b"; "b"]%string ["a"%string] 1 (-1) df
         k1_default b_default = Ok s
       /\ s < 0.
Proof.
  intros df. split.
  { intros q. unfold df. rewrite df_of_singleton. case_decide; lia. }
  assert (denominator 1 5 (-1) k1_default b_default = -3.2) as Hd.
  { unfold denominator, ratio_formula, k1_default, b_default.
    destruct (Req_dec_T (-1) 0); [lra|]. simpl. lra. }
  eexists. split.
  - apply (score_single_term _ _ _ _ _ 1%nat 1%nat); [done|done|done|].
    simpl length. rewrite Hd. lra.
  - simpl length. rewrite Hd. simpl INR.
    assert (0 < ln ((1 - 1 + 0.5) / (1 + 0.5) + 1.0)) as Hln.
    { rewrite <- ln_1. apply ln_increasing; lra. }
    unfold k1_default. nra.
Qed.




End ScoreProperties.

(** ** The order on strings and on sort keys *)

Lemma ascii_compare_eq c1 c2 : Ascii.compare c1 c2 = Eq <-> c1 = c2.
Proof.
  split; [apply Ascii.compare_eq_iff|].
  intros ->. unfold Ascii.compare. apply N.compare_refl.
Qed.

Lemma ascii_compare_lt_trans c1 c2 c3 :
  Ascii.compare c1 c2 = Lt -> Ascii.compare c2 c3 = Lt ->
  Ascii.compare c1 c3 = Lt.
Proof.
  unfold Ascii.compare. rewrite !N.compare_lt_iff. apply N.lt_trans.
Qed.

Lemma string_compare_refl s : String.compare s s = Eq.
Proof.
  induction s as [|c s IH]; simpl; [done|].
  by rewrite (proj2 (ascii_compare_eq c c) eq_refl).
Qed.

Lemma string_compare_lt_trans s1 s2 s3 :
  String.compare s1 s2 = Lt -> String.compare s2 s3 = Lt ->
  String.compare s1 s3 = Lt.
Proof.
  revert s2 s3. induction s1 as [|c1 s1 IH]; intros [|c2 s2] [|c3 s3];
    simpl; try done.
  destruct (Ascii.compare c1 c2) eqn:H12; try done;
    destruct (Ascii.compare c2 c3) eqn:H23; try done; intros Ha Hb.
  - apply ascii_compare_eq in H12 as ->. apply ascii_compare_eq in H23 as ->.
    rewrite (proj2 (ascii_compare_eq c3 c3) eq_refl). eauto.
  - apply ascii_compare_eq in H12 as ->. by rewrite H23.
  - apply ascii_compare_eq in H23 as ->. by rewrite H12.
  - by rewrite (ascii_compare_lt_trans _ _ _ H12 H23).
Qed.

Lemma string_ltb_irrefl s : String.ltb s s = false.
Proof. unfold String.ltb. by rewrite string_compare_refl. Qed.

Lemma string_ltb_trans s1 s2 s3 :
  String.ltb s1 s2 = true -> String.ltb s2 s3 = true -> String.ltb s1 s3 = true.
Proof.
  unfold String.ltb. intros H12 H23.
  destruct (String.compare s1 s2) eqn:E12; try done.
  destruct (String.compare s2 s3) eqn:E23; try done.
  by rewrite (string_compare_lt_trans _ _ _ E12 E23).
Qed.

Lemma string_ltb_connex s1 s2 :
  s1 <> s2 -> String.ltb s1 s2 = true \/ String.ltb s2 s1 = true.
Proof.
  intros Hne. unfold String.ltb.
  rewrite (String.compare_antisym s2 s1).
  destruct (String.compare s1 s2) eqn:E; simpl; auto.
  apply String.compare_eq_iff in E. congruence.
Qed.

Lemma R_float_order : PyFloatOrder R.
Proof.
  split; simpl.
  - intros x y. destruct (Req_dec_T x y); split; done.
  - intros x. destruct (Rlt_dec x x); [lra|done].
  - intros x y z. destruct (Rlt_dec x y), (Rlt_dec y z), (Rlt_dec x z);
      try done; lra.
  - intros x y Hne. destruct (Rlt_dec x y), (Rlt_dec y x); auto.
    exfalso. lra.
Qed.

Lemma Z_float_order : PyFloatOrder Z.
Proof.
  split; simpl.
  - intros x y. apply Z.eqb_eq.
  - intros x. apply Z.ltb_irrefl.
  - intros x y z. rewrite !Z.ltb_lt. lia.
  - intros x y Hne. rewrite !Z.ltb_lt. lia.
Qed.

#[global] Existing Instance R_float_order.
#[global] Existing Instance Z_float_order.

Section KeyOrder.
Context {F : Type} `{PyFloatOrder F}.

Lemma feq_refl (x : F) : feq x x = true.
Proof. by apply feq_eq. Qed.

Lemma feq_false (x y : F) : feq x y = false <-> x <> y.
Proof.
  rewrite <- (feq_eq x y). destruct (feq x y); split; congruence.
Qed.

Lemma flt_asym (x y : F) : flt x y = true -> flt y x = false.
Proof.
  intros Hxy. destruct (flt y x) eqn:Hyx; [|done].
  by rewrite <- (flt_irrefl x), <- (flt_trans x y x Hxy Hyx).
Qed.

Lemma flt_ne (x y : F) : flt x y = true -> x <> y.
Proof. intros Hxy ->. by rewrite flt_irrefl in Hxy. Qed.

Lemma key_lt_irrefl (a : F * string) : key_lt a a = false.
Proof. unfold key_lt. rewrite feq_refl. apply string_ltb_irrefl. Qed.

Lemma key_lt_trans (a b c : F * string) :
  key_lt a b = true -> key_lt b c = true -> key_lt a c = true.
Proof.
  destruct a as [s1 d1], b as [s2 d2], c as [s3 d3]. unfold key_lt. simpl.
  destruct (feq s1 s2) eqn:E12.
  { apply feq_eq in E12 as ->. destruct (feq s2 s3) eqn:E23; [|done].
    apply string_ltb_trans. }
  destruct (feq s2 s3) eqn:E23.
  { apply feq_eq in E23 as ->. by rewrite E12. }
  intros H12 H23. pose proof (flt_trans _ _ _ H12 H23) as H13.
  destruct (feq s1 s3) eqn:E13; [|done].
  apply feq_eq in E13 as ->. by rewrite (flt_asym _ _ H12) in H23.
Qed.

Lemma key_lt_connex (a b : F * string) :
  a <> b -> key_lt a b = true \/ key_lt b a = true.
Proof.
  destruct a as [s1 d1], b as [s2 d2]. unfold key_lt. simpl. intros Hne.
  destruct (feq s1 s2) eqn:E12.
  - apply feq_eq in E12 as ->. rewrite feq_refl.
    apply string_ltb_connex. congruence.
  - apply feq_false in E12.
    assert (feq s2 s1 = false) as -> by (apply feq_false; congruence).
    by apply flt_connex.
Qed.

Lemma key_eq_or_ne (a b : F * string) : a = b \/ a <> b.
Proof.
  destruct a as [s1 d1], b as [s2 d2].
  destruct (feq s1 s2) eqn:E.
  - apply feq_eq in E as ->.
    destruct (decide (d1 = d2)) as [->|]; [by left|right; congruence].
  - apply feq_false in E. right. congruence.
Qed.

Lemma key_ge_refl : Reflexive (@key_ge F _).
Proof. intros a. apply key_lt_irrefl. Qed.

Lemma key_ge_antisym : AntiSymm (=) (@key_ge F _).
Proof.
  intros a b Hab Hba. unfold key_ge in *.
  destruct (key_eq_or_ne a b) as [|Hne]; [done|].
  destruct (key_lt_connex a b Hne); congruence.
Qed.

Lemma key_ge_trans : Transitive (@key_ge F _).
Proof.
  intros a b c Hab Hbc. unfold key_ge in *.
  destruct (key_lt a c) eqn:Hac; [|done].
  destruct (key_eq_or_ne a b) as [->|Hne]; [congruence|].
  destruct (key_lt_connex a b Hne) as [|Hba]; [congruence|].
  by rewrite (key_lt_trans b a c Hba Hac) in Hbc.
Qed.

Lemma key_ge_total a b : key_ge a b \/ key_ge b a.
Proof.
  unfold key_ge. destruct (key_lt a b) eqn:Hab; [|auto].
  right. destruct (key_lt b a) eqn:Hba; [|done].
  by rewrite <- (key_lt_irrefl a), <- (key_lt_trans a b a Hab Hba).
Qed.

End KeyOrder.

#[global] Existing Instance key_ge_refl.
#[global] Existing Instance key_ge_antisym.
#[global] Existing Instance key_ge_trans.

(** ** Sorting *)

Lemma map_result_Forall2 {A B} (f : A -> result B) l l' :
  Forall2 (fun x y => f x = Ok y) l l' -> map_result f l = Ok l'.
Proof.
  induction 1 as [|x y l l' Hxy _ IH]; simpl; [done|].
  by rewrite Hxy, IH.
Qed.

Lemma map_result_enumerate_imap {A B C} (h : A -> B)
    (f : nat * B -> result C) (g : nat -> A -> C) (l : list A) :
  (forall i x, l !! i = Some x -> f (i, h x) = Ok (g i x)) ->
  map_result f (enumerate (h <$> l)) = Ok (imap g l).
Proof.
  intros Hfg. unfold enumerate. rewrite length_fmap.
  assert (forall a k,
            (forall i x, k !! i = Some x -> f (a + i, h x) = Ok (g (a + i) x)) ->
            map_result f (zip (seq a (length k)) (h <$> k))
            = Ok (imap (fun i => g (a + i)) k)) as Hgen.
  { intros a k. revert a. induction k as [|x k IH]; intros a Hk; csimpl; [done|].
    pose proof (Hk 0 x eq_refl) as H0. rewrite Nat.add_0_r in H0.
    rewrite H0. csimpl. rewrite (IH (S a)).
    - csimpl. rewrite Nat.add_0_r. do 2 f_equal.
      apply imap_ext. intros i y _. simpl. f_equal. lia.
    - intros i y Hy. specialize (Hk (S i) y Hy).
      by replace (S a + i) with (a + S i) by lia. }
  apply (Hgen 0). intros i x Hx. by apply Hfg.
Qed.

Lemma slice_to_fmap {A B} (h : A -> B) (l : list A) k :
  slice_to (h <$> l) k = h <$> slice_to l k.
Proof.
  unfold slice_to. rewrite length_fmap. destruct (0 <=? k)%Z; by rewrite fmap_take.
Qed.

Lemma slice_to_prefix {A} (l : list A) k : exists n, slice_to l k = take n l.
Proof. unfold slice_to. destruct (0 <=? k)%Z; eauto. Qed.

Lemma slice_to_nonneg {A} (l : list A) k :
  (0 <= k)%Z -> slice_to l k = take (Z.to_nat k) l.
Proof. intros Hk. unfold slice_to. by rewrite (proj2 (Z.leb_le 0 k) Hk). Qed.

Section SortFacts.
Context {F : Type} `{PyFloatOrder F}.
Implicit Types (x y : F * string * nat) (l : list (F * string * nat)).

Lemma insert_desc_perm x l : insert_desc x l ≡ₚ x :: l.
Proof.
  induction l as [|y l IH]; simpl; [done|].
  destruct (key_lt x.1 y.1); [|done].
  by rewrite IH, Permutation_swap.
Qed.

Lemma sort_desc_perm l : sort_desc l ≡ₚ l.
Proof.
  induction l as [|x l IH]; simpl; [done|].
  by rewrite insert_desc_perm, IH.
Qed.

Lemma sort_desc_length l : length (sort_desc l) = length l.
Proof. by rewrite sort_desc_perm. Qed.

Lemma triple_ge_trans : Transitive (@triple_ge F _).
Proof. intros x y z. unfold triple_ge. apply key_ge_trans. Qed.

Lemma insert_desc_hd x y l :
  triple_ge y x -> HdRel triple_ge y l -> HdRel triple_ge y (insert_desc x l).
Proof.
  intros Hyx Hl. destruct l as [|z l]; simpl; [by constructor|].
  destruct (key_lt x.1 z.1); constructor; [by inv Hl|done].
Qed.

Lemma insert_desc_sorted x l :
  Sorted triple_ge l -> Sorted triple_ge (insert_desc x l).
Proof.
  induction 1 as [|y l Hl IH Hy]; simpl; [by repeat constructor|].
  destruct (key_lt x.1 y.1) eqn:Hxy.
  - constructor; [done|]. apply insert_desc_hd; [|done].
    unfold triple_ge.
    destruct (key_ge_total y.1 x.1) as [|Hge]; [done|].
    unfold key_ge in Hge. congruence.
  - constructor; [by constructor|]. by constructor.
Qed.

Lemma sort_desc_sorted l : StronglySorted triple_ge (sort_desc l).
Proof.
  apply (@Sorted_StronglySorted _ _ triple_ge_trans).
  induction l as [|x l IH]; simpl; [constructor|].
  by apply insert_desc_sorted.
Qed.

End SortFacts.

(** ** The selector *)

Section Selector.
Context {F : Type} `{PyFloat F}.
Implicit Types (docs : list string) (scores : list F).

Lemma keyed_length docs scores :
  length scores = length docs -> length (keyed docs scores) = length docs.
Proof.
  intros Hlen. unfold keyed.
  rewrite !length_zip_with, length_seq. lia.
Qed.

Lemma keyed_lookup docs scores j x :
  keyed docs scores !! j = Some x ->
  x.2 = j /\ scores !! j = Some x.1.1 /\ docs !! j = Some x.1.2.
Proof.
  unfold keyed. intros Hj.
  apply lookup_zip_with_Some in Hj as (sd & i & -> & Hsd & Hi).
  apply lookup_zip_with_Some in Hsd as (s & d & -> & Hs & Hd).
  apply lookup_seq in Hi as [-> _]. done.
Qed.

Lemma keyed_lookup_total docs scores j :
  length scores = length docs -> j < length docs ->
  exists x, keyed docs scores !! j = Some x.
Proof.
  intros Hlen Hj. apply lookup_lt_is_Some_2. rewrite keyed_length; done.
Qed.

Lemma elem_of_keyed docs scores x :
  x ∈ keyed docs scores ->
  scores !! x.2 = Some x.1.1 /\ docs !! x.2 = Some x.1.2.
Proof.
  intros Hx. apply list_elem_of_lookup in Hx as [j Hj].
  apply keyed_lookup in Hj as (-> & Hs & Hd). done.
Qed.

Lemma keyed_fst docs scores :
  length scores = length docs -> fst <$> keyed docs scores = zip scores docs.
Proof.
  intros Hlen. unfold keyed. apply fst_zip.
  rewrite length_zip_with, length_seq. lia.
Qed.

Lemma keyed_ok docs scores :
  length scores = length docs ->
  map_result (sort_key docs scores) (seq 0 (length docs))
  = Ok (keyed docs scores).
Proof.
  intros Hlen. apply map_result_Forall2.
  apply Forall2_same_length_lookup. split.
  { by rewrite length_seq, keyed_length. }
  intros j i x Hi Hx. apply lookup_seq in Hi as [-> _]. simpl.
  apply keyed_lookup in Hx as (Hj & Hs & Hd).
  unfold sort_key. rewrite (index_lookup _ _ _ Hs), (index_lookup _ _ _ Hd).
  simpl. destruct x as [[s d] i]. simpl in *. by subst.
Qed.

Lemma sorted_indices_ok docs scores :
  length scores = length docs ->
  sorted_indices docs scores = Ok (snd <$> sort_desc (keyed docs scores)).
Proof. intros Hlen. unfold sorted_indices. by rewrite keyed_ok. Qed.

End Selector.

Section SelectorOrder.
Context {F : Type} `{PyFloatOrder F}.
Implicit Types (docs : list string) (scores : list F).

Lemma elem_of_sorted_keyed docs scores x :
  x ∈ sort_desc (keyed docs scores) ->
  scores !! x.2 = Some x.1.1 /\ docs !! x.2 = Some x.1.2.
Proof. rewrite sort_desc_perm. apply elem_of_keyed. Qed.

Lemma elem_of_slice_to {A} (l : list A) k x : x ∈ slice_to l k -> x ∈ l.
Proof.
  destruct (slice_to_prefix l k) as [n ->]. apply subseteq_take.
Qed.

(** The selector returns the head of the sorted keys, numbered from 1. *)
Lemma topk_docs_ok docs scores k :
  length scores = length docs ->
  topk_docs docs scores k
  = Ok (full_entries (slice_to (sort_desc (keyed docs scores)) k)).
Proof.
  intros Hlen. unfold topk_docs. rewrite sorted_indices_ok by done. simpl.
  rewrite slice_to_fmap. unfold full_entries.
  apply map_result_enumerate_imap. intros r x Hx. cbn [fst snd].
  assert (x ∈ sort_desc (keyed docs scores)) as Hin.
  { eapply elem_of_slice_to, list_elem_of_lookup_2, Hx. }
  apply elem_of_sorted_keyed in Hin as [Hs Hd].
  by rewrite (index_lookup _ _ _ Hs), (index_lookup _ _ _ Hd).
Qed.

Lemma slice_to_sorted (l : list (F * string * nat)) k :
  StronglySorted triple_ge l -> StronglySorted triple_ge (slice_to l k).
Proof.
  intros Hl. destruct (slice_to_prefix l k) as [n ->].
  rewrite <- (take_drop n l) in Hl. by apply StronglySorted_app_1_l in Hl.
Qed.

Lemma StronglySorted_lookup {A} (R : relation A) (l : list A) i j x y :
  StronglySorted R l -> l !! i = Some x -> l !! j = Some y -> i < j -> R x y.
Proof.
  intros Hl. revert i j. induction Hl as [|z l Hl IH Hz]; intros i j Hi Hj Hij.
  { by rewrite lookup_nil in Hi. }
  destruct j as [|j]; [lia|]. simpl in Hj.
  destruct i as [|i]; simpl in Hi.
  - injection Hi as ->. rewrite Forall_forall in Hz.
    eapply Hz, list_elem_of_lookup_2, Hj.
  - apply (IH i j); [done|done|lia].
Qed.

Lemma full_entries_lookup (l : list (F * string * nat)) r e :
  full_entries l !! r = Some e ->
  exists x, l !! r = Some x
            /\ e = {| fe_rank := r + 1; fe_score := x.1.1;
                      fe_doc := x.1.2; fe_i := x.2 |}.
Proof.
  unfold full_entries. rewrite list_lookup_imap.
  destruct (l !! r) as [x|]; [|done]. simpl. intros [= <-]. eauto.
Qed.

(** What the selector returns when the scores are parallel to the
    documents. *)
Lemma topk_docs_ranked docs scores k :
  length scores = length docs ->
  exists out,
    topk_docs docs scores k = Ok out
    /\ ((0 <= k)%Z -> length out = min (Z.to_nat k) (length docs))
    /\ (forall r e, out !! r = Some e ->
          fe_rank e = r + 1
          /\ scores !! fe_i e = Some (fe_score e)
          /\ docs !! fe_i e = Some (fe_doc e))
    /\ (forall r1 r2 e1 e2,
          out !! r1 = Some e1 -> out !! r2 = Some e2 -> r1 < r2 ->
          key_ge (fe_score e1, fe_doc e1) (fe_score e2, fe_doc e2)).
Proof.
  intros Hlen. eexists. split; [by apply topk_docs_ok|].
  set (top := slice_to (sort_desc (keyed docs scores)) k).
  split; [|split].
  - intros Hk. unfold full_entries, top.
    rewrite length_imap, slice_to_nonneg, length_take by done.
    by rewrite sort_desc_length, keyed_length.
  - intros r e He. apply full_entries_lookup in He as (x & Hx & ->). simpl.
    split; [done|]. apply elem_of_sorted_keyed.
    eapply elem_of_slice_to, list_elem_of_lookup_2, Hx.
  - intros r1 r2 e1 e2 H1 H2 Hr.
    apply full_entries_lookup in H1 as (x1 & Hx1 & ->).
    apply full_entries_lookup in H2 as (x2 & Hx2 & ->). simpl.
    pose proof (slice_to_sorted _ k (sort_desc_sorted (keyed docs scores))) as Hs.
    pose proof (StronglySorted_lookup _ _ _ _ _ _ Hs Hx1 Hx2 Hr) as Hge.
    unfold triple_ge in Hge. by destruct x1 as [[] ?], x2 as [[] ?].
Qed.

End SelectorOrder.

(** [key_ge] on real scores: the score is larger, or the scores are equal
    and the document is not smaller. *)
Lemma key_ge_real (s1 s2 : R) (d1 d2 : string) :
  key_ge (s1, d1) (s2, d2) <->
  (s2 < s1)%R \/ (s1 = s2 /\ String.ltb d1 d2 = false).
Proof.
  unfold key_ge, key_lt. simpl.
  destruct (Req_dec_T s1 s2) as [->|Hne].
  - split; [auto|]. intros [Hlt|[_ Hd]]; [lra|done].
  - destruct (Rlt_dec s1 s2) as [Hlt|Hnlt]; split; try done.
    + intros [Hgt|[Heq _]]; [lra|done].
    + intros _. left. lra.
Qed.

(** C3 (amended). For parallel lists of documents and scores and k >= 0 the
    selector, under either of its two names, returns a ranked list of length min(k, len(documents)); every
    entry carries the score and the document of its index; the entries are
    in descending score order, ties in descending document order; ranks
    count from 1 in that order, so no two entries share a rank; and of two
    entries with equal scores the one with the greater document has the
    smaller rank. *)
Theorem topk_docs_ordered (docs : list string) (scores : list R) (k : Z) :
  length scores = length docs ->
  (0 <= k)%Z ->
  exists out,
    topk_docs docs scores k = Ok out
    /\ topk_full docs scores k = Ok out
    /\ Z.of_nat (length out) = Z.min k (Z.of_nat (length docs))
    /\ (forall r e, out !! r = Some e ->
          fe_rank e = r + 1
          /\ scores !! fe_i e = Some (fe_score e)
          /\ docs !! fe_i e = Some (fe_doc e))
    /\ (forall r1 r2 e1 e2,
          out !! r1 = Some e1 -> out !! r2 = Some e2 -> r1 < r2 ->
          (fe_score e2 < fe_score e1)%R
          \/ (fe_score e1 = fe_score e2
              /\ String.ltb (fe_doc e1) (fe_doc e2) = false))
    /\ NoDup (fe_rank <$> out)
    /\ (forall e1 e2,
          e1 ∈ out -> e2 ∈ out -> fe_score e1 = fe_score e2 ->
          String.ltb (fe_doc e2) (fe_doc e1) = true ->
          fe_rank e1 < fe_rank e2).
Proof.
  intros Hlen Hk.
  destruct (topk_docs_ranked docs scores k Hlen)
    as (out & Hout & Hlength & Hentry & Hsorted).
  exists out. split; [done|]. split; [done|].
  split; [rewrite Hlength by done; lia|].
  split; [done|]. split; [|split].
  - intros r1 r2 e1 e2 H1 H2 Hr. apply key_ge_real. eauto.
  - apply NoDup_alt. intros r1 r2 n.
    rewrite !list_lookup_fmap.
    destruct (out !! r1) as [e1|] eqn:H1; [|done].
    destruct (out !! r2) as [e2|] eqn:H2; [|done].
    simpl. intros [= <-] [= Hn].
    destruct (Hentry _ _ H1) as [Hr1 _], (Hentry _ _ H2) as [Hr2 _]. lia.
  - intros e1 e2 Hin1 Hin2 Hscore Hdoc.
    apply list_elem_of_lookup in Hin1 as [r1 H1].
    apply list_elem_of_lookup in Hin2 as [r2 H2].
    destruct (Hentry _ _ H1) as [-> _], (Hentry _ _ H2) as [-> _].
    destruct (Nat.lt_trichotomy r1 r2) as [|[->|Hgt]]; [lia| |].
    + rewrite H1 in H2. injection H2 as ->.
      by rewrite string_ltb_irrefl in Hdoc.
    + pose proof (Hsorted _ _ _ _ H2 H1 Hgt) as Hge.
      apply key_ge_real in Hge as [Hlt|[_ Hge]]; [lra|congruence].
Qed.

Lemma topk_docs_ordered_witness :
  exists out,
    topk_docs ["cat dog"; "cat dog"; "bird"] [1; 1; 0]%R 2 = Ok out
    /\ topk_full ["cat dog"; "cat dog"; "bird"] [1; 1; 0]%R 2 = Ok out
    /\ Z.of_nat (length out) = Z.min 2 (Z.of_nat 3)
    /\ (forall r e, out !! r = Some e ->
          fe_rank e = r + 1
          /\ [1; 1; 0]%R !! fe_i e = Some (fe_score e)
          /\ ["cat dog"; "cat dog"; "bird"] !! fe_i e = Some (fe_doc e))
    /\ (forall r1 r2 e1 e2,
          out !! r1 = Some e1 -> out !! r2 = Some e2 -> r1 < r2 ->
          (fe_score e2 < fe_score e1)%R
          \/ (fe_score e1 = fe_score e2
              /\ String.ltb (fe_doc e1) (fe_doc e2) = false))
    /\ NoDup (fe_rank <$> out)
    /\ (forall e1 e2,
          e1 ∈ out -> e2 ∈ out -> fe_score e1 = fe_score e2 ->
          String.ltb (fe_doc e2) (fe_doc e1) = true ->
          fe_rank e1 < fe_rank e2).
Proof.
  apply (topk_docs_ordered ["cat dog"; "cat dog"; "bird"] [1; 1; 0]%R 2).
  - reflexivity.
  - lia.
Defined.

(** C3 as stated fails for a negative k: the slice [idx[:-1]] drops the
    last index only, and the length is not min(k, len(documents)). *)
Lemma topk_docs_negative_k :
  exists out,
    topk_docs ["a"; "b"] [1; 2]%R (-1) = Ok out
    /\ length out = 1
    /\ Z.of_nat (length out) <> Z.min (-1) (Z.of_nat (length ["a"; "b"])).
Proof.
  eexists. split; [by apply topk_docs_ok|].
  assert (length (full_entries
            (slice_to (sort_desc (keyed ["a"; "b"] [1; 2]%R)) (-1))) = 1) as ->.
  { unfold full_entries, slice_to. change (0 <=? -1)%Z with false. cbv iota.
    rewrite length_imap, length_take, sort_desc_length. reflexivity. }
  split; [done|]. simpl. lia.
Qed.

(** ** The expander *)

Section Expander.
Context {F : Type} `{PyFloat F}.
Implicit Types (docs : list string) (scores : list F)
  (counts_map : gmap string Z) (acc order : list (F * string)).

Lemma recon_entries_length acc : length (recon_entries acc) = length acc.
Proof. unfold recon_entries. apply length_imap. Qed.

Lemma recon_entries_snoc acc (s : F) (d : string) :
  recon_entries (acc ++ [(s, d)])
  = recon_entries acc
    ++ [{| re_rank := length acc + 1; re_score := s; re_doc := d |}].
Proof.
  unfold recon_entries. rewrite imap_app. simpl.
  by rewrite Nat.add_0_r.
Qed.

Lemma recon_entries_lookup acc r e :
  recon_entries acc !! r = Some e ->
  exists x, acc !! r = Some x
            /\ e = {| re_rank := r + 1; re_score := x.1; re_doc := x.2 |}.
Proof.
  unfold recon_entries. rewrite list_lookup_imap.
  destruct (acc !! r) as [x|]; [|done]. simpl. intros [= <-]. eauto.
Qed.

Lemma recon_entries_docs acc : re_doc <$> recon_entries acc = snd <$> acc.
Proof.
  unfold recon_entries. rewrite fmap_imap.
  rewrite <- (imap_const snd acc). by apply imap_ext.
Qed.

(** The inner loop appends [take] copies, ranked on from the end of
    [out]. *)
Lemma emit_ok scores i s doc take acc :
  scores !! i = Some s ->
  emit scores i doc take (recon_entries acc)
  = Ok (recon_entries (acc ++ replicate take (s, doc))).
Proof.
  intros Hs. revert acc. induction take as [|n IH]; intros acc; simpl.
  { by rewrite app_nil_r. }
  rewrite (index_lookup _ _ _ Hs). simpl.
  rewrite recon_entries_length.
  rewrite <- (recon_entries_snoc acc s doc), IH.
  by rewrite <- app_assoc.
Qed.

Lemma walk_0 counts_map order : walk counts_map 0 order = [].
Proof. by destruct order. Qed.

(** The loop over the sorted indices computes the walk of the
    specification. *)
Lemma expand_ok docs scores counts_map k (l : list (F * string * nat)) acc :
  (forall x, x ∈ l ->
     scores !! x.2 = Some x.1.1 /\ docs !! x.2 = Some x.1.2) ->
  expand docs scores counts_map k (snd <$> l) (recon_entries acc)
  = Ok (recon_entries
          (acc ++ walk counts_map (Z.to_nat (k - Z.of_nat (length acc)))
                    (fst <$> l))).
Proof.
  revert acc. induction l as [|x l IH]; intros acc Hl; csimpl.
  { by rewrite app_nil_r. }
  rewrite recon_entries_length.
  destruct (k <=? Z.of_nat (length acc))%Z eqn:Hk.
  { apply Z.leb_le in Hk.
    replace (Z.to_nat (k - Z.of_nat (length acc))) with 0 by lia.
    by rewrite app_nil_r. }
  apply Z.leb_gt in Hk.
  destruct (Hl x) as [Hs Hd]; [by left|].
  rewrite (index_lookup _ _ _ Hd). simpl.
  rewrite (emit_ok _ _ _ _ _ _ Hs). cbn [mbind result_bind].
  rewrite IH by (intros y Hy; apply Hl; by right).
  do 2 f_equal. rewrite <- app_assoc. f_equal.
  rewrite length_app, length_replicate.
  destruct x as [[s d] i]. cbn [fst snd].
  set (c := get counts_map d 1%Z).
  destruct (Z.to_nat (k - Z.of_nat (length acc))) as [|m] eqn:Hrem; [lia|].
  rewrite <- Hrem.
  replace (Z.of_nat (Z.to_nat (k - Z.of_nat (length acc))))
    with (k - Z.of_nat (length acc))%Z by lia.
  do 2 f_equal. lia.
Qed.

Lemma walk_take counts_map remaining order :
  walk counts_map remaining order
  = take remaining (expand_all counts_map order).
Proof.
  revert remaining. induction order as [|x order IH]; intros remaining.
  { simpl. by rewrite take_nil. }
  destruct remaining as [|m]; [done|].
  cbn [walk expand_all flat_map]. fold (expand_all counts_map order).
  set (c := get counts_map x.2 1%Z).
  rewrite take_app, take_replicate, length_replicate, IH.
  destruct (decide (Z.to_nat c <= S m)) as [Hle|Hgt].
  - replace (Z.to_nat (Z.min c (Z.of_nat (S m)))) with (Z.to_nat c) by lia.
    by rewrite Nat.min_r by lia.
  - replace (Z.to_nat (Z.min c (Z.of_nat (S m)))) with (S m) by lia.
    rewrite Nat.min_l by lia.
    replace (S m - S m) with 0 by lia.
    replace (S m - Z.to_nat c) with 0 by lia. done.
Qed.

Lemma expand_break docs scores counts_map k idx out :
  (k <= Z.of_nat (length out))%Z ->
  expand docs scores counts_map k idx out = Ok out.
Proof.
  intros Hk. destruct idx as [|i idx]; [done|]. simpl.
  by rewrite (proj2 (Z.leb_le _ _) Hk).
Qed.

(** A document whose count is zero or negative is passed over. *)
Lemma expand_skip docs scores counts_map k i doc idx out :
  docs !! i = Some doc ->
  (get counts_map doc 1 <= 0)%Z ->
  expand docs scores counts_map k (i :: idx) out
  = expand docs scores counts_map k idx out.
Proof.
  intros Hd Hc. simpl.
  destruct (k <=? Z.of_nat (length out))%Z eqn:Hk.
  { apply Z.leb_le in Hk. by rewrite expand_break. }
  rewrite (index_lookup _ _ _ Hd). simpl.
  by replace (Z.to_nat (Z.min (get counts_map doc 1%Z) (k - Z.of_nat (length out))))
    with 0 by lia.
Qed.

Lemma elem_of_expand_all counts_map order x :
  x ∈ expand_all counts_map order ->
  x ∈ order /\ (0 < get counts_map x.2 1)%Z.
Proof.
  unfold expand_all. rewrite list_elem_of_In, in_flat_map.
  intros (y & Hy & Hx). apply list_elem_of_In in Hy, Hx.
  apply elem_of_replicate in Hx as [-> Hn]. split; [done|lia].
Qed.

Lemma walk_length_le counts_map remaining order :
  length (walk counts_map remaining order) <= remaining.
Proof. rewrite walk_take, length_take. lia. Qed.

Lemma expand_all_length counts_map order :
  (foldr Z.add 0 (map (fun x => get counts_map x.2 1) order)
   <= Z.of_nat (length (expand_all counts_map order)))%Z.
Proof.
  induction order as [|x order IH]; simpl; [lia|].
  rewrite length_app, length_replicate. lia.
Qed.

End Expander.

Section ExpanderOrder.
Context {F : Type} `{PyFloatOrder F}.
Implicit Types (docs : list string) (scores : list F)
  (counts_map : gmap string Z).

Lemma topk_reconstructed_ok docs scores counts_map k :
  length scores = length docs ->
  topk_reconstructed docs scores counts_map k
  = Ok (recon_entries (walk counts_map (Z.to_nat k) (ranking docs scores))).
Proof.
  intros Hlen. unfold topk_reconstructed.
  rewrite sorted_indices_ok by done. simpl.
  change (@nil (recon_entry F)) with (recon_entries (@nil (F * string))).
  rewrite expand_ok by apply elem_of_sorted_keyed.
  simpl. by rewrite Z.sub_0_r.
Qed.

Lemma ranking_perm docs scores :
  length scores = length docs -> ranking docs scores ≡ₚ zip scores docs.
Proof.
  intros Hlen. unfold ranking.
  by rewrite sort_desc_perm, keyed_fst.
Qed.

Lemma ranking_sorted docs scores : StronglySorted key_ge (ranking docs scores).
Proof.
  unfold ranking.
  apply (StronglySorted_fmap fst triple_ge key_ge); [done|].
  apply sort_desc_sorted.
Qed.

End ExpanderOrder.

Lemma StronglySorted_weaken {A} (R1 R2 : relation A) (l : list A) :
  (forall x y, R1 x y -> R2 x y) -> StronglySorted R1 l -> StronglySorted R2 l.
Proof. induction 2; constructor; eauto using Forall_impl. Qed.

Lemma foldr_Zadd_perm (l1 l2 : list Z) :
  l1 ≡ₚ l2 -> foldr Z.add 0%Z l1 = foldr Z.add 0%Z l2.
Proof. induction 1; simpl; lia. Qed.

Section ExpanderLength.
Context {F : Type} `{PyFloatOrder F}.
Implicit Types (docs : list string) (scores : list F)
  (counts_map : gmap string Z).

Lemma ranking_total_count docs scores counts_map :
  length scores = length docs ->
  foldr Z.add 0%Z (map (fun x => get counts_map x.2 1%Z) (ranking docs scores))
  = total_count counts_map docs.
Proof.
  intros Hlen. unfold total_count.
  rewrite <- (map_map snd (fun d => get counts_map d 1%Z)).
  apply foldr_Zadd_perm, Permutation_map.
  change (map snd (ranking docs scores)) with (snd <$> ranking docs scores).
  rewrite (ranking_perm docs scores Hlen).
  rewrite snd_zip by lia. done.
Qed.

Lemma topk_reconstructed_count docs scores counts_map k :
  length scores = length docs ->
  (0 <= k)%Z ->
  exists out,
    topk_reconstructed docs scores counts_map k = Ok out
    /\ (Z.of_nat (length out) <= k)%Z
    /\ ((k <= total_count counts_map docs)%Z -> Z.of_nat (length out) = k).
Proof.
  intros Hlen Hk. eexists. split; [by apply topk_reconstructed_ok|].
  rewrite recon_entries_length, walk_take, length_take.
  split; [lia|]. intros Htotal.
  pose proof (expand_all_length counts_map (ranking docs scores)) as Hall.
  rewrite ranking_total_count in Hall by done. lia.
Qed.

Lemma topk_reconstructed_skips docs scores counts_map k :
  length scores = length docs ->
  exists out,
    topk_reconstructed docs scores counts_map k = Ok out
    /\ forall d, (get counts_map d 1 <= 0)%Z -> d ∉ re_doc <$> out.
Proof.
  intros Hlen. eexists. split; [by apply topk_reconstructed_ok|].
  intros d Hd. rewrite recon_entries_docs, walk_take.
  intros Hin. apply list_elem_of_fmap in Hin as (x & -> & Hx).
  apply subseteq_take in Hx.
  apply elem_of_expand_all in Hx as [_ Hpos]. lia.
Qed.

End ExpanderLength.

(** C4. For unique documents with parallel scores the expander first
    orders the documents by score descending, then document descending, and
    then walks that order: a document of multiplicity
    c = count_map.get(doc, 1) gives min(c, remaining slots) consecutive
    entries with its score, none when that number is not positive; ranks
    count on from 1; and once K entries are emitted the loop returns
    whatever indices are left, so later documents are not visited. *)
Theorem topk_reconstructed_walk (unique_docs : list string)
    (unique_scores : list R) (counts_map : gmap string Z) (k : Z) :
  length unique_scores = length unique_docs ->
  exists (order : list (R * string)) (out : list (recon_entry R)),
    order ≡ₚ zip unique_scores unique_docs
    /\ StronglySorted
         (fun a b => (b.1 < a.1)%R \/ (a.1 = b.1 /\ String.ltb a.2 b.2 = false))
         order
    /\ topk_reconstructed unique_docs unique_scores counts_map k = Ok out
    /\ (fun e => (re_score e, re_doc e)) <$> out
       = walk counts_map (Z.to_nat k) order
    /\ (forall r e, out !! r = Some e -> re_rank e = r + 1)
    /\ (forall idx out',
          (k <= Z.of_nat (length out'))%Z ->
          expand unique_docs unique_scores counts_map k idx out' = Ok out').
Proof.
  intros Hlen.
  exists (ranking unique_docs unique_scores). eexists.
  split; [by apply ranking_perm|]. split.
  { apply (StronglySorted_weaken key_ge); [|apply ranking_sorted].
    intros [s1 d1] [s2 d2]. apply key_ge_real. }
  split; [by apply topk_reconstructed_ok|]. split; [|split].
  - unfold recon_entries. rewrite fmap_imap.
    rewrite <- (list_fmap_id (walk _ _ _)) at 2.
    rewrite <- imap_const. apply imap_ext. by intros r [s d] _.
  - intros r e He. by apply recon_entries_lookup in He as (x & _ & ->).
  - intros idx out'. apply expand_break.
Qed.

Lemma topk_reconstructed_walk_witness :
  exists (order : list (R * string)) (out : list (recon_entry R)),
    order ≡ₚ zip [1; 0]%R ["cat dog"; "bird"]
    /\ StronglySorted
         (fun a b => (b.1 < a.1)%R \/ (a.1 = b.1 /\ String.ltb a.2 b.2 = false))
         order
    /\ topk_reconstructed ["cat dog"; "bird"] [1; 0]%R
         {["cat dog" := 2%Z; "bird" := 1%Z]} 3 = Ok out
    /\ (fun e => (re_score e, re_doc e)) <$> out
       = walk {["cat dog" := 2%Z; "bird" := 1%Z]} (Z.to_nat 3) order
    /\ (forall r e, out !! r = Some e -> re_rank e = r + 1)
    /\ (forall idx out',
          (3 <= Z.of_nat (length out'))%Z ->
          expand ["cat dog"; "bird"] [1; 0]%R
            {["cat dog" := 2%Z; "bird" := 1%Z]} 3 idx out' = Ok out').
Proof.
  apply (topk_reconstructed_walk ["cat dog"; "bird"] [1; 0]%R
           {["cat dog" := 2%Z; "bird" := 1%Z]} 3).
  reflexivity.
Defined.

(** C5 (amended). For K >= 0 the number of entries the expander emits
    never exceeds K, and it equals K unless the total counted occurrences of
    the unique documents is less than K. *)
Theorem topk_reconstructed_conservation (unique_docs : list string)
    (unique_scores : list R) (counts_map : gmap string Z) (k : Z) :
  length unique_scores = length unique_docs ->
  (0 <= k)%Z ->
  exists out,
    topk_reconstructed unique_docs unique_scores counts_map k = Ok out
    /\ (Z.of_nat (length out) <= k)%Z
    /\ ((k <= total_count counts_map unique_docs)%Z ->
        Z.of_nat (length out) = k).
Proof. apply topk_reconstructed_count. Qed.

Lemma topk_reconstructed_conservation_witness :
  exists out,
    topk_reconstructed ["cat dog"; "bird"] [1; 0]%R
      {["cat dog" := 2%Z; "bird" := 1%Z]} 2 = Ok out
    /\ (Z.of_nat (length out) <= 2)%Z
    /\ ((2 <= total_count {["cat dog" := 2%Z; "bird" := 1%Z]}
                ["cat dog"; "bird"])%Z ->
        Z.of_nat (length out) = 2%Z).
Proof.
  apply (topk_reconstructed_conservation ["cat dog"; "bird"] [1; 0]%R
           {["cat dog" := 2%Z; "bird" := 1%Z]} 2).
  - reflexivity.
  - lia.
Defined.

(** C5 as stated fails for a negative K: the expander emits no entry, and
    0 exceeds K. *)
Lemma topk_reconstructed_negative_k :
  exists out,
    topk_reconstructed ["a"] [1]%R ∅ (-1) = Ok out
    /\ out = []
    /\ ~ (Z.of_nat (length out) <= -1)%Z.
Proof.
  eexists. split; [by apply topk_reconstructed_ok|].
  change (Z.to_nat (-1)) with 0. rewrite walk_0. split; [done|]. simpl. lia.
Qed.

(** C10. When the count of a document is zero or negative the expander
    raises nothing, the document has no entry in the output, and the loop
    goes on with the indices that follow. *)
Theorem zero_count_skipped (unique_docs : list string)
    (unique_scores : list R) (counts_map : gmap string Z) (k : Z) :
  length unique_scores = length unique_docs ->
  (exists out,
     topk_reconstructed unique_docs unique_scores counts_map k = Ok out
     /\ forall d, (get counts_map d 1 <= 0)%Z -> d ∉ re_doc <$> out)
  /\ (forall i doc idx out,
        unique_docs !! i = Some doc ->
        (get counts_map doc 1 <= 0)%Z ->
        expand unique_docs unique_scores counts_map k (i :: idx) out
        = expand unique_docs unique_scores counts_map k idx out).
Proof.
  intros Hlen. split; [by apply topk_reconstructed_skips|].
  intros i doc idx out. apply expand_skip.
Qed.

Lemma zero_count_skipped_witness :
  (exists out,
     topk_reconstructed ["a"; "b"] [2; 1]%R {["a" := 0%Z; "b" := 2%Z]} 2
     = Ok out
     /\ forall d, (get {["a" := 0%Z; "b" := 2%Z]} d 1 <= 0)%Z ->
                  d ∉ re_doc <$> out)
  /\ (forall i doc idx out,
        ["a"; "b"] !! i = Some doc ->
        (get {["a" := 0%Z; "b" := 2%Z]} doc 1 <= 0)%Z ->
        expand ["a"; "b"] [2; 1]%R {["a" := 0%Z; "b" := 2%Z]} 2 (i :: idx) out
        = expand ["a"; "b"] [2; 1]%R {["a" := 0%Z; "b" := 2%Z]} 2 idx out).
Proof.
  apply (zero_count_skipped ["a"; "b"] [2; 1]%R {["a" := 0%Z; "b" := 2%Z]} 2).
  reflexivity.
Defined.

Example topk_reconstructed_ex :
  (fun e => (re_rank e, re_doc e))
    <$> (match topk_reconstructed ["bird"; "cat dog"; "emu"] [0; 1; 1]%Z
                 {["cat dog" := 2%Z; "emu" := 0%Z]} 4
         with Ok l => l | _ => [] end)
  = [(1, "cat dog"); (2, "cat dog"); (3, "bird")].
Proof. vm_compute. reflexivity. Qed.

(** ** Reconstruction of an exact deduplication *)

Lemma occurrences_replicate x d n :
  occurrences x (replicate n d) = if decide (x = d) then n else 0.
Proof.
  unfold occurrences. induction n as [|n IH]; simpl.
  { by destruct (decide (x = d)). }
  rewrite IH. destruct (String.string_dec d x), (decide (x = d)); congruence.
Qed.

Lemma occurrences_flat_map (g : string -> nat) (red : list string) x :
  NoDup red ->
  occurrences x (flat_map (fun d => replicate (g d) d) red)
  = if decide (x ∈ red) then g x else 0.
Proof.
  unfold occurrences. induction 1 as [|d red Hd Hred IH]; simpl; [done|].
  rewrite count_occ_app, IH.
  pose proof (occurrences_replicate x d (g d)) as Hrep.
  unfold occurrences in Hrep. rewrite Hrep.
  destruct (decide (x = d)) as [->|Hne].
  - rewrite decide_False by done. rewrite decide_True by left. lia.
  - destruct (decide (x ∈ red)).
    + rewrite decide_True; [done|by right].
    + rewrite decide_False; [done|]. rewrite elem_of_cons. tauto.
Qed.

Lemma occurrences_elem_of x l : x ∉ l -> occurrences x l = 0.
Proof.
  intros Hx. unfold occurrences. apply count_occ_not_In.
  by rewrite <- list_elem_of_In.
Qed.

(** Repeating every distinct document as often as it occurs gives the
    corpus back, up to order. *)
Lemma dedup_expand_perm (full red : list string) :
  NoDup red -> (forall d, d ∈ red <-> d ∈ full) ->
  flat_map (fun d => replicate (occurrences d full) d) red ≡ₚ full.
Proof.
  intros Hnd Hsame.
  apply (Permutation_count_occ String.string_dec). intros x.
  pose proof (occurrences_flat_map (fun d => occurrences d full) red x Hnd) as Hx.
  unfold occurrences in Hx at 1. rewrite Hx.
  destruct (decide (x ∈ red)) as [|Hnin]; [done|].
  symmetry. apply occurrences_elem_of. by rewrite <- Hsame.
Qed.

Section Reconstruction.
Context {F : Type} `{PyFloatOrder F}.
Variable sc : string -> F.
Implicit Types (full_docs red_docs : list string) (counts_map : gmap string Z).

Lemma zip_fmap_score (docs : list string) :
  zip (sc <$> docs) docs = (fun d => (sc d, d)) <$> docs.
Proof. induction docs as [|d docs IH]; csimpl; [done|]. by rewrite IH. Qed.

Lemma expand_all_sorted counts_map (order : list (F * string)) :
  StronglySorted key_ge order ->
  StronglySorted key_ge (expand_all counts_map order).
Proof.
  induction 1 as [|x order Horder IH Hx]; [constructor|].
  change (expand_all counts_map (x :: order))
    with (replicate (Z.to_nat (get counts_map x.2 1%Z)) x
          ++ expand_all counts_map order).
  apply StronglySorted_app. split_and!; [| |exact IH].
  - intros y z Hy Hz. apply elem_of_replicate in Hy as [-> _].
    apply elem_of_expand_all in Hz as [Hz _].
    rewrite Forall_forall in Hx. auto.
  - induction (Z.to_nat _) as [|n IHn]; simpl; constructor; [done|].
    apply Forall_forall. intros y Hy.
    apply elem_of_replicate in Hy as [-> _]. reflexivity.
Qed.

Lemma expand_all_scored counts_map full_docs red_docs :
  exact_dedup full_docs red_docs counts_map ->
  expand_all counts_map ((fun d => (sc d, d)) <$> red_docs)
  ≡ₚ (fun d => (sc d, d)) <$> full_docs.
Proof.
  intros (Hnd & Hsame & Hcount).
  assert (expand_all counts_map ((fun d => (sc d, d)) <$> red_docs)
          = (fun d => (sc d, d))
              <$> flat_map (fun d => replicate (occurrences d full_docs) d)
                    red_docs) as ->.
  { clear Hnd Hsame.
    induction red_docs as [|d red_docs IH]; [done|].
    csimpl. unfold expand_all in *. simpl. rewrite fmap_app. f_equal.
    - unfold get. rewrite (Hcount d) by left. simpl. rewrite Nat2Z.id.
      by rewrite fmap_replicate.
    - apply IH. intros d' Hd'. apply Hcount. by right. }
  apply fmap_Permutation. by apply dedup_expand_perm.
Qed.

(** The heart of the equivalence: with an exact deduplication the expanded
    ranking of REDUCED is the ranking of FULL. *)
Lemma expand_all_ranking counts_map full_docs red_docs :
  exact_dedup full_docs red_docs counts_map ->
  expand_all counts_map (ranking red_docs (sc <$> red_docs))
  = ranking full_docs (sc <$> full_docs).
Proof.
  intros Hdedup.
  apply (StronglySorted_unique key_ge).
  - apply expand_all_sorted, ranking_sorted.
  - apply ranking_sorted.
  - rewrite (ranking_perm full_docs) by apply length_fmap.
    rewrite zip_fmap_score, <- (expand_all_scored counts_map) by done.
    unfold expand_all. apply Permutation_flat_map.
    rewrite (ranking_perm red_docs) by apply length_fmap.
    by rewrite zip_fmap_score.
Qed.

End Reconstruction.

(** ** The comparison *)

Lemma map_result_seq {A B} (f : nat -> result B) (g : A -> B) (l : list A) :
  (forall i x, l !! i = Some x -> f i = Ok (g x)) ->
  map_result f (seq 0 (length l)) = Ok (g <$> l).
Proof.
  intros Hfg. apply map_result_Forall2, Forall2_same_length_lookup. split.
  { by rewrite length_seq, length_fmap. }
  intros j i y Hi Hy. apply lookup_seq in Hi as [-> _]. simpl.
  rewrite list_lookup_fmap in Hy.
  destruct (l !! j) as [x|] eqn:Hx; [|done].
  injection Hy as <-. by apply Hfg.
Qed.

Section Diff.
Context {F : Type} `{PyFloat F}.

Lemma diff_step_same (ft : list (full_entry F)) (rt : list (recon_entry F))
    ms i f r :
  ft !! i = Some f -> rt !! i = Some r -> fe_doc f = re_doc r ->
  diff_step ft rt ms i = Ok ms.
Proof.
  intros Hf Hr Hsame. unfold diff_step.
  rewrite (index_lookup _ _ _ Hf), (index_lookup _ _ _ Hr). simpl.
  by rewrite decide_True.
Qed.

Lemma diff_loop_nil (ft : list (full_entry F)) (rt : list (recon_entry F)) l :
  (forall i f r, ft !! i = Some f -> rt !! i = Some r -> fe_doc f = re_doc r) ->
  (forall i, i ∈ l -> i < min (length ft) (length rt)) ->
  for_each (diff_step ft rt) [] l = Ok [].
Proof.
  intros Hsame. induction l as [|i l IH]; intros Hl; simpl; [done|].
  assert (i < min (length ft) (length rt)) as Hi by (apply Hl; by left).
  destruct (lookup_lt_is_Some_2 ft i) as [f Hf]; [lia|].
  destruct (lookup_lt_is_Some_2 rt i) as [r Hr]; [lia|].
  rewrite (diff_step_same _ _ _ _ _ _ Hf Hr) by eauto. simpl.
  apply IH. intros j Hj. apply Hl. by right.
Qed.

(** Ranked lists that agree on the document at every common position give
    no mismatch. *)
Lemma diff_nil (ft : list (full_entry F)) (rt : list (recon_entry F)) :
  (forall i f r, ft !! i = Some f -> rt !! i = Some r -> fe_doc f = re_doc r) ->
  diff ft rt = Ok [].
Proof.
  intros Hsame. unfold diff. apply diff_loop_nil; [done|].
  intros i Hi. apply elem_of_seq in Hi. lia.
Qed.

End Diff.

Section LockedStatistics.
Context {F : Type} `{PyFloatOrder F}.
Variable sc : string -> F.

(** Selection over FULL and reconstruction over REDUCED, both scored by one
    function of the document, agree position by position. *)
Lemma selection_matches_reconstruction full_docs red_docs counts_map k :
  exact_dedup full_docs red_docs counts_map ->
  exists ft rt,
    topk_docs full_docs (sc <$> full_docs) k = Ok ft
    /\ topk_reconstructed red_docs (sc <$> red_docs) counts_map k = Ok rt
    /\ diff ft rt = Ok [].
Proof.
  intros Hdedup. do 2 eexists.
  split; [apply topk_docs_ok, length_fmap|].
  split; [apply topk_reconstructed_ok, length_fmap|].
  apply diff_nil. intros i f r Hf Hr.
  apply full_entries_lookup in Hf as (x & Hx & ->).
  apply recon_entries_lookup in Hr as (y & Hy & ->). simpl.
  rewrite walk_take, (expand_all_ranking sc _ full_docs) in Hy by done.
  apply lookup_take_Some in Hy as [Hy _].
  destruct (slice_to_prefix (sort_desc (keyed full_docs (sc <$> full_docs))) k)
    as [n Hn].
  rewrite Hn in Hx. apply lookup_take_Some in Hx as [Hx _].
  unfold ranking in Hy. rewrite list_lookup_fmap, Hx in Hy.
  by injection Hy as <-.
Qed.

End LockedStatistics.

(** Lines 82 to 99 of [main] in locked-statistics mode. *)
Lemma strict_compare_pass full_docs red_docs counts_map q_terms k :
  exact_dedup full_docs red_docs counts_map ->
  exists o,
    Strict.compare full_docs red_docs counts_map q_terms k = Ok o
    /\ mismatches o = []
    /\ status_pass o = true.
Proof.
  intros Hdedup. unfold Strict.compare.
  set (st := build_full_stats full_docs).
  set (sc := fun d => bm25_formula (tokenize d) q_terms (st_N st) (st_avgdl st)
                        (st_df st) k1_default b_default).
  pose proof (build_full_stats_avgdl_nonneg full_docs) as Ha. fold st in Ha.
  rewrite (map_result_seq _ sc full_docs).
  2:{ intros i d Hd.
      pose proof (build_full_stats_toks _ _ _ Hd) as Ht. fold st in Ht.
      rewrite (index_lookup _ _ _ Ht). simpl. by apply bm25_score_doc_ok. }
  rewrite (map_result_ok _ sc red_docs)
    by (intros d _; by apply bm25_score_doc_ok).
  cbn [mbind result_bind].
  destruct (selection_matches_reconstruction sc full_docs red_docs counts_map k
              Hdedup) as (ft & rt & -> & -> & Hdiff).
  cbn [mbind result_bind]. rewrite Hdiff. simpl. eauto.
Qed.

(** C1. In locked-statistics mode, when REDUCED lists exactly the distinct
    documents of FULL and the count map gives each of them its number of
    occurrences in FULL, the run raises nothing and, for every query and
    every K (so for every K <= |FULL|), the positional diff of the FULL
    top-K against the reconstructed top-K has no mismatch: the report
    states PASS. *)
Theorem strict_main_pass (full_lines red_lines : list string)
    (counts_map : gmap string Z) (qs : list string) (k : Z) :
  NoDup (load_corpus red_lines) ->
  (forall d, d ∈ load_corpus red_lines <-> d ∈ load_corpus full_lines) ->
  (forall d, d ∈ load_corpus red_lines ->
     counts_map !! d
     = Some (Z.of_nat (occurrences d (load_corpus full_lines)))) ->
  exists o,
    Strict.main full_lines red_lines counts_map qs k = Ok o
    /\ mismatches o = []
    /\ status_pass o = true.
Proof.
  intros Hnd Hsame Hcount. unfold Strict.main.
  by apply strict_compare_pass.
Qed.

Lemma strict_main_pass_witness :
  exists o,
    Strict.main ["cat dog"; "Cat   DOG "; "bird"] ["cat dog"; "bird"]
      {["cat dog" := 2%Z; "bird" := 1%Z]} ["cat"] 3 = Ok o
    /\ mismatches o = []
    /\ status_pass o = true.
Proof.
  apply (strict_main_pass ["cat dog"; "Cat   DOG "; "bird"] ["cat dog"; "bird"]
           {["cat dog" := 2%Z; "bird" := 1%Z]} ["cat"] 3).
  - apply (bool_decide_unpack _). vm_compute. reflexivity.
  - assert (load_corpus ["cat dog"; "bird"] = ["cat dog"; "bird"]) as ->
      by (vm_compute; reflexivity).
    assert (load_corpus ["cat dog"; "Cat   DOG "; "bird"]
            = ["cat dog"; "cat dog"; "bird"]) as ->
      by (vm_compute; reflexivity).
    intros d. rewrite !elem_of_cons, elem_of_nil. tauto.
  - assert (load_corpus ["cat dog"; "bird"] = ["cat dog"; "bird"]) as ->
      by (vm_compute; reflexivity).
    assert (load_corpus ["cat dog"; "Cat   DOG "; "bird"]
            = ["cat dog"; "cat dog"; "bird"]) as ->
      by (vm_compute; reflexivity).
    intros d. rewrite !elem_of_cons, elem_of_nil.
    intros [->|[->|[]]]; vm_compute; reflexivity.
Defined.

(** * Further properties of the code *)

(** ** Tokens *)

Lemma isspace_not_word c : py_isspace c = true -> is_word_char c = false.
Proof. destruct c as [[] [] [] [] [] [] [] []]; simpl; done. Qed.

Lemma flush_word cur :
  Forall (fun c => is_word_char c = true) cur ->
  Forall (fun t => t <> ""
                   /\ Forall (fun c => is_word_char c = true)
                        (list_ascii_of_string t)) (flush cur).
Proof.
  intros Hcur. destruct cur as [|c cur]; simpl; [constructor|].
  constructor; [|constructor]. split; [done|].
  change (String c (string_of_list_ascii cur))
    with (string_of_list_ascii (c :: cur)).
  by rewrite list_ascii_of_string_of_list_ascii.
Qed.

Lemma findall_word_tokens cur s :
  Forall (fun c => is_word_char c = true) cur ->
  Forall (fun t => t <> ""
                   /\ Forall (fun c => is_word_char c = true)
                        (list_ascii_of_string t)) (findall_word cur s).
Proof.
  revert cur. induction s as [|c s IH]; intros cur Hcur; simpl.
  { by apply flush_word. }
  destruct (is_word_char c) eqn:Hc.
  - apply IH, Forall_app. split; [done|]. by repeat constructor.
  - apply Forall_app. split; [by apply flush_word|]. apply IH. constructor.
Qed.

Lemma findall_word_nil cur s :
  findall_word cur s = []
  <-> cur = [] /\ Forall (fun c => is_word_char c = false) s.
Proof.
  revert cur. induction s as [|c s IH]; intros cur; simpl.
  { destruct cur; simpl; split; try done; by intros [? _]. }
  destruct (is_word_char c) eqn:Hc.
  - rewrite IH. split.
    + intros [Hnil _]. by destruct cur.
    + intros [_ Hall]. inv Hall. congruence.
  - split.
    + intros Happ. apply app_eq_nil in Happ as [Hcur Hs].
      apply IH in Hs as [_ Hs]. destruct cur; [|done]. split; [done|].
      by constructor.
    + intros [-> Hall]. inv Hall. simpl. apply IH. done.
Qed.

(** X1. Every token that [tokenize] returns is a non-empty string of
    characters of the class a-z0-9. *)
Theorem tokenize_tokens (s : string) :
  Forall (fun t => t <> ""
                   /\ Forall (fun c => is_word_char c = true)
                        (list_ascii_of_string t)) (tokenize s).
Proof. unfold tokenize. apply findall_word_tokens. constructor. Qed.

(** X2. [tokenize] returns no token exactly when no character of the
    string, once lower-cased, is in the class a-z0-9: an empty string or a
    string of punctuation and whitespace gives the empty list. *)
Theorem tokenize_empty (s : string) :
  tokenize s = []
  <-> Forall (fun c => is_word_char (py_lower c) = false)
        (list_ascii_of_string s).
Proof.
  unfold tokenize, lower. rewrite findall_word_nil, Forall_fmap.
  split; [by intros [_ ?]|done].
Qed.

Lemma findall_word_collapse s :
  (forall cur, findall_word cur (collapse_ws false s) = findall_word cur s)
  /\ findall_word [] (collapse_ws true s) = findall_word [] s.
Proof.
  induction s as [|c s [IHf IHt]]; [done|]. simpl.
  destruct (py_isspace c) eqn:Hc.
  - pose proof (isspace_not_word c Hc) as Hw. rewrite Hw. split.
    + intros cur. simpl. by rewrite IHt.
    + by rewrite IHt.
  - split.
    + intros cur. simpl. destruct (is_word_char c); by rewrite IHf.
    + simpl. destruct (is_word_char c); by rewrite IHf.
Qed.

Lemma findall_word_lstrip s :
  findall_word [] (lstrip s) = findall_word [] s.
Proof.
  induction s as [|c s IH]; [done|]. simpl.
  destruct (py_isspace c) eqn:Hc; [|done].
  by rewrite (isspace_not_word c Hc), IH.
Qed.

Lemma findall_word_rstrip cur s :
  findall_word cur (rstrip s) = findall_word cur s.
Proof.
  revert cur. induction s as [|c s IH]; intros cur; [done|].
  simpl rstrip. destruct (rstrip s) as [|a r] eqn:Hr.
  - destruct (py_isspace c) eqn:Hc.
    + simpl. rewrite (isspace_not_word c Hc), <- IH. simpl.
      by rewrite app_nil_r.
    + simpl. destruct (is_word_char c); by rewrite <- IH.
  - simpl findall_word at 2. rewrite <- !IH. done.
Qed.

(** X3. Normalization does not change the tokens of a string:
    [tokenize(norm_ws_lower(s)) == tokenize(s)]. *)
Theorem tokenize_norm_ws_lower (s : string) :
  tokenize (norm_ws_lower s) = tokenize s.
Proof.
  unfold tokenize, norm_ws_lower, norm_chars, strip.
  rewrite list_ascii_of_string_of_list_ascii, lower_idem.
  rewrite <- rstrip_lower, <- lstrip_lower, <- collapse_ws_lower.
  rewrite findall_word_rstrip, findall_word_lstrip.
  apply findall_word_collapse.
Qed.

(** ** Normalized text *)

Lemma py_lower_space_inv c : py_isspace c = true -> py_lower c = c.
Proof. destruct c as [[] [] [] [] [] [] [] []]; simpl; done. Qed.

Lemma well_spaced_collapse b s : well_spaced b (collapse_ws b s) = true.
Proof.
  revert b. induction s as [|c s IH]; intros b; simpl; [done|].
  destruct (py_isspace c) eqn:Hc.
  - destruct b; [apply IH|]. simpl. by rewrite IH.
  - simpl. rewrite Hc. apply IH.
Qed.

Lemma well_spaced_weaken b s :
  well_spaced b s = true -> well_spaced false s = true.
Proof.
  destruct s as [|c s]; [done|]. simpl.
  destruct (py_isspace c); [|done]. destruct b; simpl; [done|done].
Qed.

Lemma well_spaced_lstrip b s :
  well_spaced b s = true -> well_spaced false (lstrip s) = true.
Proof.
  revert b. induction s as [|c s IH]; intros b; [done|]. simpl.
  destruct (py_isspace c) eqn:Hc.
  - intros Hw. apply andb_true_iff in Hw as [_ Hw]. by apply (IH true).
  - intros Hw. simpl. by rewrite Hc.
Qed.

Lemma well_spaced_rstrip b s :
  well_spaced b s = true -> well_spaced b (rstrip s) = true.
Proof.
  revert b. induction s as [|c s IH]; intros b; [done|]. simpl.
  destruct (py_isspace c) eqn:Hc.
  - intros Hw. apply andb_true_iff in Hw as [Hbc Hw].
    specialize (IH true Hw).
    destruct (rstrip s) as [|a r]; [done|].
    simpl well_spaced. rewrite Hc, Hbc. exact IH.
  - intros Hw. specialize (IH false Hw).
    destruct (rstrip s) as [|a r]; simpl well_spaced; rewrite Hc; [done|].
    exact IH.
Qed.

Lemma well_spaced_lower b s : well_spaced b (lower s) = well_spaced b s.
Proof.
  revert b. induction s as [|c s IH]; intros b; [done|]. simpl.
  rewrite py_isspace_lower. destruct (py_isspace c) eqn:Hc; [|apply IH].
  by rewrite IH, (py_lower_space_inv c Hc).
Qed.

Lemma well_spaced_norm_chars s : well_spaced false (norm_chars s) = true.
Proof.
  unfold norm_chars, strip. rewrite well_spaced_lower.
  apply well_spaced_rstrip, (well_spaced_lstrip false), well_spaced_collapse.
Qed.

(** What [well_spaced] says about the characters. *)
Lemma well_spaced_chars b s :
  well_spaced b s = true ->
  Forall (fun c => py_isspace c = true -> c = " "%char) s
  /\ (forall i c d, s !! i = Some c -> s !! S i = Some d ->
        py_isspace c = true -> py_isspace d = false).
Proof.
  revert b. induction s as [|c s IH]; intros b Hw.
  { split; [constructor|]. intros i ? ? Hi. by rewrite lookup_nil in Hi. }
  simpl in Hw. destruct (py_isspace c) eqn:Hc.
  - apply andb_true_iff in Hw as [Hbc Hw].
    apply andb_true_iff in Hbc as [_ Heq]. apply Ascii.eqb_eq in Heq.
    destruct (IH true Hw) as [Hall Hadj]. split; [by constructor|].
    intros [|i] c1 d; simpl.
    + intros [= <-] Hd _. destruct s as [|a s]; [done|].
      injection Hd as ->. simpl in Hw.
      destruct (py_isspace d); [done|done].
    + apply Hadj.
  - destruct (IH false Hw) as [Hall Hadj]. split.
    + constructor; [congruence|done].
    + intros [|i] c1 d; simpl; [intros [= <-]; congruence|apply Hadj].
Qed.

Lemma lstrip_head_not_space s c :
  head (lstrip s) = Some c -> py_isspace c = false.
Proof.
  induction s as [|a s IH]; [done|]. simpl.
  destruct (py_isspace a) eqn:Ha; [done|]. simpl. by intros [= <-].
Qed.

Lemma rstrip_head s c : head (rstrip s) = Some c -> head s = Some c.
Proof.
  destruct s as [|a s]; [done|]. simpl.
  destruct (rstrip s); [destruct (py_isspace a)|]; simpl; done.
Qed.

Lemma rstrip_last_not_space s c :
  last (rstrip s) = Some c -> py_isspace c = false.
Proof.
  induction s as [|a s IH]; [done|]. simpl.
  destruct (rstrip s) as [|x r].
  - destruct (py_isspace a) eqn:Ha; [done|]. simpl. by intros [= <-].
  - intros Hl. apply IH. by rewrite last_cons_cons in Hl.
Qed.

Lemma head_lower s : head (lower s) = py_lower <$> head s.
Proof. by destruct s. Qed.

Lemma last_lower s : last (lower s) = py_lower <$> last s.
Proof. unfold lower. apply fmap_last. Qed.

(** X4. A normalized string has no whitespace at either end, its only
    whitespace character is the space, no whitespace character follows
    another one, and lower-casing leaves every character as it is. *)
Theorem norm_ws_lower_normal_form (s : string) :
  let r := list_ascii_of_string (norm_ws_lower s) in
  (forall c, head r = Some c -> py_isspace c = false)
  /\ (forall c, last r = Some c -> py_isspace c = false)
  /\ Forall (fun c => py_isspace c = true -> c = " "%char) r
  /\ (forall i c d, r !! i = Some c -> r !! S i = Some d ->
        py_isspace c = true -> py_isspace d = false)
  /\ Forall (fun c => py_lower c = c) r.
Proof.
  unfold norm_ws_lower. rewrite list_ascii_of_string_of_list_ascii.
  set (l := list_ascii_of_string s). cbv zeta.
  destruct (well_spaced_chars false _ (well_spaced_norm_chars l)) as [Hall Hadj].
  split_and!; [| |done|done|].
  - unfold norm_chars, strip. rewrite head_lower. intros c Hc.
    destruct (head (rstrip (lstrip (collapse_ws false l)))) as [a|] eqn:Ha;
      [|done].
    injection Hc as <-. rewrite py_isspace_lower.
    by apply rstrip_head, lstrip_head_not_space in Ha.
  - unfold norm_chars, strip. rewrite last_lower. intros c Hc.
    destruct (last (rstrip (lstrip (collapse_ws false l)))) as [a|] eqn:Ha;
      [|done].
    injection Hc as <-. rewrite py_isspace_lower.
    by apply rstrip_last_not_space in Ha.
  - unfold norm_chars, lower. apply Forall_fmap, Forall_forall.
    intros c _. apply py_lower_idem.
Qed.

(** ** Loading *)

Lemma lstrip_nil s :
  lstrip s = [] <-> Forall (fun c => py_isspace c = true) s.
Proof.
  induction s as [|c s IH]; simpl; [split; [constructor|done]|].
  destruct (py_isspace c) eqn:Hc.
  - rewrite IH. split; [by constructor|by inversion 1].
  - split; [done|]. inversion 1; congruence.
Qed.

Lemma rstrip_nil s :
  rstrip s = [] <-> Forall (fun c => py_isspace c = true) s.
Proof.
  induction s as [|c s IH]; simpl; [split; [constructor|done]|].
  destruct (rstrip s) as [|a r].
  - destruct (py_isspace c) eqn:Hc.
    + split; [intros _; constructor; [done|by apply IH]|done].
    + split; [done|]. inversion 1; congruence.
  - split; [done|]. inversion 1 as [|? ? _ Hs]. by apply IH in Hs.
Qed.

Lemma lstrip_all_space s :
  Forall (fun c => py_isspace c = true) (lstrip s)
  <-> Forall (fun c => py_isspace c = true) s.
Proof.
  induction s as [|c s IH]; [done|]. simpl.
  destruct (py_isspace c) eqn:Hc; [|done].
  rewrite IH. split; [by constructor|by inversion 1].
Qed.

Lemma strip_nil s : strip s = [] <-> Forall (fun c => py_isspace c = true) s.
Proof. unfold strip. by rewrite rstrip_nil, lstrip_all_space. Qed.

Lemma collapse_all_space b s :
  Forall (fun c => py_isspace c = true) (collapse_ws b s) ->
  Forall (fun c => py_isspace c = true) s.
Proof.
  revert b. induction s as [|c s IH]; intros b; [done|]. simpl.
  destruct (py_isspace c) eqn:Hc.
  - destruct b; intros Hall; constructor; try done; [by eapply IH|].
    inv Hall. by eapply IH.
  - inversion 1; congruence.
Qed.

Lemma norm_chars_nil s : norm_chars s = [] -> strip s = [].
Proof.
  unfold norm_chars, lower. intros Hnil.
  apply fmap_nil_inv in Hnil. apply strip_nil in Hnil.
  by apply strip_nil, (collapse_all_space false).
Qed.

(** X5. Loading a corpus never yields more documents than there are
    lines, and every loaded document is non-empty and already normalized:
    blank lines are dropped and normalizing a loaded document again changes
    nothing. *)
Theorem load_corpus_documents (lines : list string) :
  length (load_corpus lines) <= length lines
  /\ Forall (fun d => d <> "" /\ norm_ws_lower d = d) (load_corpus lines).
Proof.
  unfold load_corpus. split.
  { rewrite length_map. apply length_filter. }
  apply Forall_forall. intros d Hd.
  apply list_elem_of_In, in_map_iff in Hd as (x & <- & Hx).
  apply list_elem_of_In, list_elem_of_filter in Hx as [Hx _].
  split.
  2:{ unfold norm_ws_lower.
      by rewrite list_ascii_of_string_of_list_ascii, norm_chars_idem. }
  unfold norm_ws_lower. intros Hnil.
  destruct (norm_chars (list_ascii_of_string x)) as [|c r] eqn:Hn; [|done].
  by apply norm_chars_nil in Hn.
Qed.

Lemma query_terms_from acc qs :
  foldl (fun q_terms q => q_terms ++ tokenize q) acc qs
  = acc ++ flat_map tokenize qs.
Proof.
  revert acc. induction qs as [|q qs IH]; intros acc; simpl.
  { by rewrite app_nil_r. }
  by rewrite IH, app_assoc.
Qed.

(** X6. The query term list is the tokens of the query strings, string
    after string in the order given; the boundary between two query
    strings leaves no trace. *)
Theorem query_terms_concat (qs1 qs2 : list string) :
  query_terms qs1 = flat_map tokenize qs1
  /\ query_terms (qs1 ++ qs2) = query_terms qs1 ++ query_terms qs2.
Proof.
  unfold query_terms. rewrite !query_terms_from. simpl.
  split; [done|]. apply flat_map_app.
Qed.

(** ** Counters and statistics *)

Lemma incr_lookup_exact x c q :
  incr x c !! q
  = if decide (q = x) then Some (S (default 0 (c !! x))) else c !! q.
Proof.
  unfold incr. destruct (decide (q = x)) as [->|Hne].
  - by rewrite lookup_insert_eq.
  - by rewrite lookup_insert_ne.
Qed.

Lemma Counter_lookup_from c doc q :
  foldl (fun c x => incr x c) c doc !! q
  = match freq q doc with
    | 0 => c !! q
    | S m => Some (default 0 (c !! q) + S m)
    end.
Proof.
  revert c. induction doc as [|x doc IH]; intros c; [done|].
  simpl foldl. rewrite IH, incr_lookup_exact. unfold freq. simpl count_occ.
  fold (freq q doc).
  destruct (String.string_dec x q) as [->|Hne].
  - rewrite decide_True by done.
    destruct (freq q doc); simpl; f_equal; lia.
  - rewrite decide_False by done. done.
Qed.

(** X7. A [Counter] built from a token list maps every token of the list
    to its number of occurrences and holds no entry for any other string,
    so [tf.get(q, 0)] is the raw frequency of [q]. *)
Theorem Counter_lookup (doc_tokens : list string) (q : string) :
  Counter doc_tokens !! q
  = (if freq q doc_tokens =? 0 then None else Some (freq q doc_tokens))
  /\ get (Counter doc_tokens) q 0 = freq q doc_tokens
  /\ (q ∈ doc_tokens <-> freq q doc_tokens <> 0).
Proof.
  split; [|split].
  - unfold Counter. rewrite Counter_lookup_from, lookup_empty.
    by destruct (freq q doc_tokens).
  - apply Counter_get.
  - unfold freq. rewrite list_elem_of_In, (count_occ_In String.string_dec). lia.
Qed.

Lemma df_count_from df toks q :
  df_of (foldl update_set df toks) q
  = df_of df q + length (filter (fun t => q ∈ t) toks).
Proof.
  revert df. induction toks as [|t toks IH]; intros df; simpl; [lia|].
  rewrite IH, update_set_df_of, filter_cons.
  destruct (decide (q ∈ t)); simpl; lia.
Qed.

(** X8. The document frequency of a term is the number of documents of
    the corpus in whose tokens it occurs, each document counted once however
    often the term occurs in it; it never exceeds the number of documents,
    and it is zero for a term of no document. *)
Theorem build_full_stats_df (full_docs : list string) (q : string) :
  let st := build_full_stats full_docs in
  get (st_df st) q 0
  = length (filter (fun d => q ∈ tokenize d) full_docs)
  /\ get (st_df st) q 0 <= st_N st.
Proof.
  cbv zeta. rewrite get_df_of. split.
  - unfold build_full_stats. cbn [st_df].
    rewrite df_count_from. unfold df_of at 1. rewrite lookup_empty. simpl.
    induction full_docs as [|d docs IH]; [done|].
    simpl map. rewrite !filter_cons.
    destruct (decide (q ∈ tokenize d)); simpl; by rewrite IH.
  - apply build_full_stats_df_le.
Qed.

Lemma sum_list_zero (l : list nat) : sum_list l = 0 <-> Forall (fun n => n = 0) l.
Proof.
  induction l as [|n l IH]; simpl; [split; [constructor|done]|].
  split.
  - intros Hs. constructor; [lia|]. apply IH. lia.
  - inversion 1 as [|? ? -> Hl]. apply IH in Hl. lia.
Qed.

(** X9. The statistics of a corpus: N is the number of documents, the
    token lists and the lengths are parallel to the documents, avgdl is not
    negative, and avgdl is 0, so that the guard on the division by avgdl
    fires, exactly when no document of the corpus has a token. *)
Theorem build_full_stats_shape (full_docs : list string) :
  let st := build_full_stats full_docs in
  st_N st = length full_docs
  /\ length (st_toks st) = length full_docs
  /\ (forall i d, full_docs !! i = Some d ->
        st_toks st !! i = Some (tokenize d)
        /\ st_dl st !! i = Some (length (tokenize d)))
  /\ (0 <= st_avgdl st)%R
  /\ (st_avgdl st = 0%R <-> Forall (fun d => tokenize d = []) full_docs).
Proof.
  cbv zeta. unfold build_full_stats. cbn [st_N st_toks st_dl st_avgdl].
  rewrite length_map. split_and!; try done.
  - intros i d Hd. by rewrite !list_lookup_fmap, Hd.
  - apply mean_length_nonneg.
  - assert (sum_list (map length (map tokenize full_docs)) = 0
            <-> Forall (fun d => tokenize d = []) full_docs) as Hsum.
    { rewrite sum_list_zero, map_map.
      change (map (fun d => length (tokenize d)) full_docs)
        with ((fun d => length (tokenize d)) <$> full_docs).
      rewrite Forall_fmap. apply Forall_iff. intros d. simpl.
      apply length_zero_iff_nil. }
    rewrite <- Hsum. unfold mean_length.
    destruct (length full_docs =? 0) eqn:HN.
    + apply Nat.eqb_eq in HN. apply length_zero_iff_nil in HN as ->.
      simpl. split; [done|intros _; lra].
    + apply Nat.eqb_neq in HN.
      assert (0 < INR (length full_docs))%R as Hpos by (apply lt_0_INR; lia).
      set (total := sum_list (map length (map tokenize full_docs))).
      split.
      * intros Hz. apply INR_eq. simpl.
        apply (Rmult_eq_reg_r (/ INR (length full_docs))).
        -- unfold Rdiv in Hz. rewrite Hz. lra.
        -- apply Rinv_neq_0_compat. lra.
      * intros ->. simpl. unfold Rdiv. lra.
Qed.

Section ScoreExtras.
Local Open Scope R_scope.

Lemma freq_perm q d1 d2 : d1 ≡ₚ d2 -> freq q d1 = freq q d2.
Proof.
  intros Hp. unfold freq.
  by apply (Permutation_count_occ String.string_dec).
Qed.

(** X11. The score of a document depends on its tokens only through their
    counts and their number: reordering the tokens changes neither the score
    nor whether the scorer raises. *)
Theorem bm25_score_doc_perm (d1 d2 q_terms : list string) (N : nat)
    (avgdl : R) (df : gmap string nat) (k1 b : R) :
  d1 ≡ₚ d2 ->
  bm25_score_doc d1 q_terms N avgdl df k1 b
  = bm25_score_doc d2 q_terms N avgdl df k1 b.
Proof.
  intros Hp. unfold bm25_score_doc.
  rewrite (Permutation_length Hp).
  apply for_each_ext. intros s q _. unfold score_step.
  by rewrite !Counter_get, (freq_perm q d1 d2 Hp).
Qed.

Lemma bm25_score_doc_perm_witness :
  bm25_score_doc ["cat"; "dog"; "cat"]%string ["cat"%string] 3 2 ∅
    k1_default b_default
  = bm25_score_doc ["dog"; "cat"; "cat"]%string ["cat"%string] 3 2 ∅
      k1_default b_default.
Proof.
  apply (bm25_score_doc_perm ["cat"; "dog"; "cat"]%string
           ["dog"; "cat"; "cat"]%string).
  apply perm_swap.
Defined.

Lemma score_loop_filter doc q_terms N avgdl df k1 b s :
  for_each (score_step (Counter doc) (length doc) N avgdl df k1 b) s q_terms
  = for_each (score_step (Counter doc) (length doc) N avgdl df k1 b) s
      (filter (fun q => q ∈ doc) q_terms).
Proof.
  revert s. induction q_terms as [|q qs IH]; intros s; [done|].
  rewrite filter_cons. destruct (decide (q ∈ doc)) as [Hin|Hnin].
  - simpl. destruct (score_step _ _ _ _ _ _ _ s q); simpl; [apply IH|done].
  - simpl. rewrite <- IH.
    assert (freq q doc = 0%nat) as Hf.
    { unfold freq. apply count_occ_not_In. by rewrite <- list_elem_of_In. }
    by rewrite score_step_spec, Hf.
Qed.

(** X12. Query terms that do not occur in the document can be left out:
    the scorer returns the same for the query restricted to the terms of the
    document, so a document that shares no term with the query scores 0.0
    whatever the statistics. *)
Theorem bm25_score_doc_absent_terms (doc_tokens q_terms : list string)
    (N : nat) (avgdl : R) (df : gmap string nat) (k1 b : R) :
  bm25_score_doc doc_tokens q_terms N avgdl df k1 b
  = bm25_score_doc doc_tokens (filter (fun q => q ∈ doc_tokens) q_terms)
      N avgdl df k1 b
  /\ (filter (fun q => q ∈ doc_tokens) q_terms = [] ->
      bm25_score_doc doc_tokens q_terms N avgdl df k1 b = Ok 0.0).
Proof.
  unfold bm25_score_doc. split; [apply score_loop_filter|].
  intros Hnone. by rewrite score_loop_filter, Hnone.
Qed.

Lemma contribution_bound doc N avgdl df q :
  0 <= avgdl -> (df_of df q <= N)%nat ->
  contribution doc N avgdl df k1_default b_default q
  <= (k1_default + 1) * idf_formula N df q.
Proof.
  intros Ha Hdf. pose proof (idf_formula_nonneg N df q Hdf) as Hidf.
  unfold contribution. destruct (freq q doc =? 0)%nat.
  { unfold k1_default. nra. }
  pose proof (length_penalty_default_pos (length doc) avgdl Ha) as Hp.
  pose proof (pos_INR (freq q doc)) as Hf.
  assert (INR (freq q doc) * (k1_default + 1)
          / denominator (freq q doc) (length doc) avgdl k1_default b_default
          <= (k1_default + 1) / 1) as Hfrac.
  { unfold denominator, length_penalty, k1_default in *. apply frac_le; nra. }
  unfold k1_default in *. nra.
Qed.

(** X13. However often the query terms occur in a document, its score
    stays at or below (k1 + 1) times the sum of the idf of the query terms,
    for statistics with avgdl not negative and df[q] <= N. *)
Theorem bm25_score_doc_saturates (doc_tokens q_terms : list string) (N : nat)
    (avgdl : R) (df : gmap string nat) :
  0 <= avgdl ->
  (forall q, (get df q 0 <= N)%nat) ->
  exists s,
    bm25_score_doc doc_tokens q_terms N avgdl df k1_default b_default = Ok s
    /\ s <= (k1_default + 1)
            * fold_left Rplus (map (fun q => idf q N df) q_terms) 0.
Proof.
  intros Ha Hdf. eexists. split; [by apply bm25_score_doc_ok|].
  unfold bm25_formula.
  induction q_terms as [|q qs IH]; [simpl; lra|].
  rewrite !sum_contributions_cons.
  pose proof (contribution_bound doc_tokens N avgdl df q Ha) as Hq.
  rewrite <- get_df_of in Hq. specialize (Hq (Hdf q)).
  rewrite idf_idf_formula. lra.
Qed.

Lemma bm25_score_doc_saturates_witness :
  let st := build_full_stats ["cat dog"; "cat dog"; "bird"]%string in
  exists s,
    bm25_score_doc ["cat"; "cat"; "cat"]%string ["cat"; "bird"]%string
      (st_N st) (st_avgdl st) (st_df st) k1_default b_default = Ok s
    /\ s <= (k1_default + 1)
            * fold_left Rplus
                (map (fun q => idf q (st_N st) (st_df st))
                   ["cat"; "bird"]%string) 0.
Proof.
  intros st.
  apply (bm25_score_doc_saturates ["cat"; "cat"; "cat"]%string
           ["cat"; "bird"]%string (st_N st) (st_avgdl st) (st_df st)).
  - apply build_full_stats_avgdl_nonneg.
  - intros q. rewrite get_df_of. apply build_full_stats_df_le.
Defined.

End ScoreExtras.

(** ** Scores that are not parallel to the documents *)

Lemma map_result_raise {A B} (f : A -> result B) l1 x l2 e :
  (forall y, y ∈ l1 -> exists z, f y = Ok z) ->
  f x = Raise e ->
  map_result f (l1 ++ x :: l2) = Raise e.
Proof.
  intros Hok Hx. induction l1 as [|y l1 IH]; simpl.
  { by rewrite Hx. }
  destruct (Hok y) as [z Hz]; [by left|]. rewrite Hz. simpl.
  rewrite IH; [done|]. intros y' Hy'. apply Hok. by right.
Qed.

Lemma index_ge {A} (l : list A) i : length l <= i -> index l i = Raise IndexError.
Proof. intros Hi. unfold index. by rewrite lookup_ge_None_2. Qed.

Lemma index_lt {A} (l : list A) i : i < length l -> exists x, index l i = Ok x.
Proof.
  intros Hi. destruct (lookup_lt_is_Some_2 l i Hi) as [x Hx].
  exists x. by apply index_lookup.
Qed.

Section ShortScores.
Context {F : Type} `{PyFloat F}.

Lemma sorted_indices_short (docs : list string) (scores : list F) :
  length scores < length docs ->
  sorted_indices docs scores = Raise IndexError.
Proof.
  intros Hlen. unfold sorted_indices.
  replace (length docs)
    with (length scores + S (length docs - length scores - 1)) by lia.
  rewrite seq_app. cbn [seq]. rewrite map_result_raise with (e := IndexError).
  - done.
  - intros i Hi. apply elem_of_seq in Hi. unfold sort_key.
    destruct (index_lt scores i) as [s ->]; [lia|].
    destruct (index_lt docs i) as [d ->]; [lia|]. simpl. eauto.
  - unfold sort_key. simpl. by rewrite (index_ge scores).
Qed.

End ShortScores.

(** X14. When there are fewer scores than documents the selector, under
    either name, and the expander raise IndexError, whatever K and the count
    map are: the sort key of the first document without a score cannot be
    built. *)
Theorem short_scores_raise (docs : list string) (scores : list R)
    (counts_map : gmap string Z) (k : Z) :
  length scores < length docs ->
  topk_docs docs scores k = Raise IndexError
  /\ topk_full docs scores k = Raise IndexError
  /\ topk_reconstructed docs scores counts_map k = Raise IndexError.
Proof.
  intros Hlen. unfold topk_docs, topk_full, topk_reconstructed.
  by rewrite sorted_indices_short.
Qed.

Lemma short_scores_raise_witness :
  topk_docs ["cat dog"; "bird"] [1]%R 2 = Raise IndexError
  /\ topk_full ["cat dog"; "bird"] [1]%R 2 = Raise IndexError
  /\ topk_reconstructed ["cat dog"; "bird"] [1]%R ∅ 2 = Raise IndexError.
Proof.
  apply (short_scores_raise ["cat dog"; "bird"] [1]%R ∅ 2).
  simpl. lia.
Defined.

Section LongScores.
Context {F : Type} `{PyFloatOrder F}.
Implicit Types (docs : list string) (scores : list F).

Lemma index_take {A} (l : list A) n i : i < n -> index (take n l) i = index l i.
Proof. intros Hi. unfold index. by rewrite lookup_take_lt. Qed.

Lemma sorted_indices_take docs scores :
  sorted_indices docs (take (length docs) scores) = sorted_indices docs scores.
Proof.
  unfold sorted_indices. f_equal. apply map_result_ext.
  intros i Hi. apply elem_of_seq in Hi. unfold sort_key.
  rewrite index_take by lia. done.
Qed.

Lemma emit_take scores n i doc take_ out :
  i < n -> emit (take n scores) i doc take_ out = emit scores i doc take_ out.
Proof.
  intros Hi. revert out. induction take_ as [|m IH]; intros out; simpl; [done|].
  rewrite index_take by done. destruct (index scores i); simpl; [apply IH|done].
Qed.

Lemma expand_take docs scores counts_map k idx out :
  (forall i, i ∈ idx -> i < length docs) ->
  expand docs (take (length docs) scores) counts_map k idx out
  = expand docs scores counts_map k idx out.
Proof.
  revert out. induction idx as [|i idx IH]; intros out Hidx; simpl; [done|].
  destruct (k <=? Z.of_nat (length out))%Z; [done|].
  destruct (index docs i); simpl; [|done].
  rewrite emit_take by (apply Hidx; by left).
  destruct (emit scores i a _ out); simpl; [|done].
  apply IH. intros j Hj. apply Hidx. by right.
Qed.

Lemma sorted_indices_bound docs scores idx i :
  sorted_indices docs scores = Ok idx -> i ∈ idx -> i < length docs.
Proof.
  intros Hidx Hi.
  assert (length (take (length docs) scores) = length docs
          \/ length scores < length docs) as [Hlen|Hshort].
  { rewrite length_take. lia. }
  - rewrite <- sorted_indices_take, sorted_indices_ok in Hidx by done.
    injection Hidx as <-. apply list_elem_of_fmap in Hi as (x & -> & Hx).
    apply elem_of_sorted_keyed in Hx as [_ Hd].
    by apply lookup_lt_Some in Hd.
  - by rewrite sorted_indices_short in Hidx.
Qed.

Lemma topk_docs_take docs scores k :
  topk_docs docs (take (length docs) scores) k = topk_docs docs scores k.
Proof.
  unfold topk_docs. rewrite sorted_indices_take.
  destruct (sorted_indices docs scores) as [idx|] eqn:Hidx; simpl; [|done].
  apply map_result_ext. intros [r i] Hri. cbn [fst snd].
  apply elem_of_enumerate in Hri.
  assert (i ∈ idx) as Hi.
  { eapply elem_of_slice_to, list_elem_of_lookup_2, Hri. }
  rewrite index_take; [done|]. by eapply sorted_indices_bound.
Qed.

Lemma topk_reconstructed_take docs scores counts_map k :
  topk_reconstructed docs (take (length docs) scores) counts_map k
  = topk_reconstructed docs scores counts_map k.
Proof.
  unfold topk_reconstructed. rewrite sorted_indices_take.
  destruct (sorted_indices docs scores) as [idx|] eqn:Hidx; simpl; [|done].
  apply expand_take. intros i Hi. by eapply sorted_indices_bound.
Qed.

End LongScores.

(** X15. Scores beyond the number of documents are never read: selector
    and expander return the same with the score list cut to the length of
    the document list. *)
Theorem surplus_scores_ignored (docs : list string) (scores : list R)
    (counts_map : gmap string Z) (k : Z) :
  topk_docs docs (take (length docs) scores) k = topk_docs docs scores k
  /\ topk_reconstructed docs (take (length docs) scores) counts_map k
     = topk_reconstructed docs scores counts_map k.
Proof. split; [apply topk_docs_take|apply topk_reconstructed_take]. Qed.

(** ** More on the selector *)

Lemma StronglySorted_lookup_2 {A} (R : relation A) (l : list A) :
  (forall i j x y, l !! i = Some x -> l !! j = Some y -> i < j -> R x y) ->
  StronglySorted R l.
Proof.
  induction l as [|a l IH]; intros Hl; constructor.
  - apply IH. intros i j x y Hi Hj Hij. apply (Hl (S i) (S j)); [done|done|lia].
  - apply Forall_forall. intros y Hy.
    apply list_elem_of_lookup in Hy as [j Hj].
    apply (Hl 0 (S j)); [done|done|lia].
Qed.

Section Stability.
Context {F : Type} `{PyFloatOrder F}.
Implicit Types (x y : F * string * nat) (l : list (F * string * nat)).

Lemma key_lt_ge (a b : F * string) : key_lt a b = true -> key_ge b a.
Proof.
  intros Hab. unfold key_ge. destruct (key_lt b a) eqn:Hba; [|done].
  by rewrite <- (key_lt_irrefl a), <- (key_lt_trans a b a Hab Hba).
Qed.

Lemma key_lt_neq (a b : F * string) : key_lt a b = true -> a <> b.
Proof. intros Hab ->. by rewrite key_lt_irrefl in Hab. Qed.

Lemma insert_desc_stable x l :
  StronglySorted stable_ge l ->
  Forall (fun y => x.2 < y.2) l ->
  StronglySorted stable_ge (insert_desc x l).
Proof.
  induction 1 as [|y l Hl IH Hy]; intros Hx; simpl.
  { repeat constructor. }
  inversion Hx as [|? ? Hxy Hxl]; subst.
  destruct (key_lt x.1 y.1) eqn:Hlt.
  - constructor; [by apply IH|].
    apply Forall_forall. intros z Hz.
    rewrite insert_desc_perm in Hz. apply elem_of_cons in Hz as [->|Hz].
    + split; [by apply key_lt_ge|].
      intros Heq. symmetry in Heq. by apply key_lt_neq in Hlt.
    + rewrite Forall_forall in Hy. by apply Hy.
  - constructor; [by constructor|].
    constructor; [by split|].
    apply Forall_forall. intros z Hz. rewrite Forall_forall in Hy, Hxl.
    destruct (Hy z Hz) as [Hyz _]. split; [|intros _; by apply Hxl].
    unfold triple_ge in *. by transitivity y.1.
Qed.

Lemma sort_desc_stable l :
  StronglySorted (fun x y => x.2 < y.2) l ->
  StronglySorted stable_ge (sort_desc l).
Proof.
  induction 1 as [|x l Hl IH Hx]; simpl; [constructor|].
  apply insert_desc_stable; [done|].
  apply Forall_forall. intros y Hy. rewrite sort_desc_perm in Hy.
  rewrite Forall_forall in Hx. by apply Hx.
Qed.

Lemma keyed_increasing (docs : list string) (scores : list F) :
  StronglySorted (fun x y => x.2 < y.2) (keyed docs scores).
Proof.
  apply StronglySorted_lookup_2. intros i j x y Hx Hy Hij.
  apply keyed_lookup in Hx as [-> _]. apply keyed_lookup in Hy as [-> _].
  done.
Qed.

Lemma slice_to_stable l k :
  StronglySorted stable_ge l -> StronglySorted stable_ge (slice_to l k).
Proof.
  intros Hl. destruct (slice_to_prefix l k) as [n ->].
  rewrite <- (take_drop n l) in Hl. by apply StronglySorted_app_1_l in Hl.
Qed.

Lemma topk_docs_stable_order (docs : list string) (scores : list F) k :
  length scores = length docs ->
  exists out,
    topk_docs docs scores k = Ok out
    /\ forall r1 r2 e1 e2,
         out !! r1 = Some e1 -> out !! r2 = Some e2 -> r1 < r2 ->
         fe_score e1 = fe_score e2 -> fe_doc e1 = fe_doc e2 ->
         fe_i e1 < fe_i e2.
Proof.
  intros Hlen. eexists. split; [by apply topk_docs_ok|].
  intros r1 r2 e1 e2 H1 H2 Hr Hs Hd.
  apply full_entries_lookup in H1 as (x1 & Hx1 & ->).
  apply full_entries_lookup in H2 as (x2 & Hx2 & ->). simpl in *.
  pose proof (slice_to_stable _ k
                (sort_desc_stable _ (keyed_increasing docs scores))) as Hst.
  destruct (StronglySorted_lookup _ _ _ _ _ _ Hst Hx1 Hx2 Hr) as [_ Hidx].
  apply Hidx. destruct x1 as [[] ?], x2 as [[] ?]. simpl in *. congruence.
Qed.

End Stability.

(** X16. The sort of the selector is stable: of two entries with the
    same score and the same document, the one with the smaller original
    index stands first. *)
Theorem topk_docs_stable (docs : list string) (scores : list R) (k : Z) :
  length scores = length docs ->
  exists out,
    topk_docs docs scores k = Ok out
    /\ forall r1 r2 e1 e2,
         out !! r1 = Some e1 -> out !! r2 = Some e2 -> r1 < r2 ->
         fe_score e1 = fe_score e2 -> fe_doc e1 = fe_doc e2 ->
         fe_i e1 < fe_i e2.
Proof. apply topk_docs_stable_order. Qed.

Lemma topk_docs_stable_witness :
  exists out,
    topk_docs ["cat dog"; "bird"; "cat dog"] [1; 0; 1]%R 3 = Ok out
    /\ forall r1 r2 e1 e2,
         out !! r1 = Some e1 -> out !! r2 = Some e2 -> r1 < r2 ->
         fe_score e1 = fe_score e2 -> fe_doc e1 = fe_doc e2 ->
         fe_i e1 < fe_i e2.
Proof.
  apply (topk_docs_stable ["cat dog"; "bird"; "cat dog"] [1; 0; 1]%R 3).
  reflexivity.
Defined.

Example topk_docs_stable_ex :
  fe_i <$> (match topk_docs ["b"; "a"; "b"; "a"] [1; 2; 1; 2]%Z 4 with
            | Ok l => l | _ => [] end)
  = [1; 3; 0; 2].
Proof. vm_compute. reflexivity. Qed.

Lemma imap_take {A B} (f : nat -> A -> B) (l : list A) n :
  imap f (take n l) = take n (imap f l).
Proof.
  revert f n. induction l as [|x l IH]; intros f [|n]; simpl; try done.
  by rewrite IH.
Qed.

Section Selection.
Context {F : Type} `{PyFloatOrder F}.
Implicit Types (docs : list string) (scores : list F).

Lemma full_entries_indices (l : list (F * string * nat)) :
  fe_i <$> full_entries l = snd <$> l.
Proof.
  unfold full_entries. rewrite fmap_imap.
  rewrite <- (imap_const snd l). by apply imap_ext.
Qed.

Lemma full_entries_docs (l : list (F * string * nat)) :
  fe_doc <$> full_entries l = (fun x => x.1.2) <$> l.
Proof.
  unfold full_entries. rewrite fmap_imap.
  rewrite <- (imap_const (fun x : F * string * nat => x.1.2) l).
  by apply imap_ext.
Qed.

Lemma keyed_snd docs scores :
  length scores = length docs -> snd <$> keyed docs scores = seq 0 (length docs).
Proof.
  intros Hlen. unfold keyed. apply snd_zip.
  rewrite length_zip_with, length_seq. lia.
Qed.

Lemma keyed_docs docs scores :
  length scores = length docs ->
  (fun x => x.1.2) <$> keyed docs scores = docs.
Proof.
  intros Hlen.
  transitivity (snd <$> (fst <$> keyed docs scores)).
  { by rewrite <- list_fmap_compose. }
  rewrite keyed_fst by done. apply snd_zip. lia.
Qed.

Lemma keyed_elem docs scores j s d :
  length scores = length docs ->
  scores !! j = Some s -> docs !! j = Some d ->
  (s, d, j) ∈ keyed docs scores.
Proof.
  intros Hlen Hs Hd.
  destruct (keyed_lookup_total docs scores j Hlen) as [x Hx].
  { by apply lookup_lt_Some in Hd. }
  apply keyed_lookup in Hx as Hx'. destruct Hx' as (Hj & Hs' & Hd').
  destruct x as [[s' d'] j']. simpl in *.
  assert (s' = s) as -> by congruence. assert (d' = d) as -> by congruence.
  subst j'. by eapply list_elem_of_lookup_2.
Qed.

Lemma topk_docs_selection docs scores k :
  length scores = length docs ->
  exists out,
    topk_docs docs scores k = Ok out
    /\ NoDup (fe_i <$> out)
    /\ (forall e j s d,
          e ∈ out -> j ∉ fe_i <$> out ->
          scores !! j = Some s -> docs !! j = Some d ->
          key_ge (fe_score e, fe_doc e) (s, d))
    /\ ((Z.of_nat (length docs) <= k)%Z -> fe_doc <$> out ≡ₚ docs).
Proof.
  intros Hlen. eexists. split; [by apply topk_docs_ok|].
  set (sorted := sort_desc (keyed docs scores)).
  destruct (slice_to_prefix sorted k) as [n Hn].
  split; [|split].
  - rewrite full_entries_indices, Hn, fmap_take.
    eapply sublist_NoDup; [|apply sublist_take].
    unfold sorted. rewrite sort_desc_perm, keyed_snd by done.
    apply NoDup_seq.
  - intros e j s d He Hj Hs Hd.
    rewrite full_entries_indices, Hn in Hj. rewrite Hn in He.
    apply list_elem_of_lookup in He as [r He].
    apply full_entries_lookup in He as (x & Hx & ->). simpl.
    assert ((s, d, j) ∈ sorted) as Hin.
    { unfold sorted. rewrite sort_desc_perm. by apply keyed_elem. }
    rewrite <- (take_drop n sorted) in Hin.
    apply elem_of_app in Hin as [Hin|Hin].
    { exfalso. apply Hj. apply list_elem_of_fmap. by exists (s, d, j). }
    pose proof (sort_desc_sorted (keyed docs scores)) as Hsorted.
    fold sorted in Hsorted. rewrite <- (take_drop n sorted) in Hsorted.
    apply StronglySorted_app in Hsorted as (Hcross & _ & _).
    specialize (Hcross x (s, d, j) (list_elem_of_lookup_2 _ _ _ Hx) Hin).
    unfold triple_ge in Hcross. by destruct x as [[] ?].
  - intros Hk. rewrite full_entries_docs.
    assert (slice_to sorted k = sorted) as ->.
    { rewrite slice_to_nonneg by lia. apply take_ge.
      unfold sorted. rewrite sort_desc_length, keyed_length by done. lia. }
    unfold sorted. by rewrite sort_desc_perm, keyed_docs.
Qed.

Lemma topk_docs_prefix docs scores k k' :
  length scores = length docs -> (0 <= k <= k')%Z ->
  exists out out',
    topk_docs docs scores k = Ok out
    /\ topk_docs docs scores k' = Ok out'
    /\ out = take (Z.to_nat k) out'.
Proof.
  intros Hlen Hk. do 2 eexists.
  split; [by apply topk_docs_ok|]. split; [by apply topk_docs_ok|].
  unfold full_entries. rewrite !slice_to_nonneg by lia.
  rewrite <- imap_take, take_take. f_equal. f_equal. lia.
Qed.

Lemma topk_reconstructed_prefix docs scores counts_map k k' :
  length scores = length docs -> (k <= k')%Z ->
  exists out out',
    topk_reconstructed docs scores counts_map k = Ok out
    /\ topk_reconstructed docs scores counts_map k' = Ok out'
    /\ out = take (Z.to_nat k) out'.
Proof.
  intros Hlen Hk. do 2 eexists.
  split; [by apply topk_reconstructed_ok|].
  split; [by apply topk_reconstructed_ok|].
  unfold recon_entries. rewrite !walk_take.
  rewrite <- imap_take, take_take. f_equal. f_equal. lia.
Qed.

End Selection.

(** X17. For parallel lists the selector never lists an index twice; a
    document left out never ranks above a listed one: its score is smaller,
    or equal with a document string that is not greater; and with K at
    least the number of documents the listed documents are a reordering of
    the corpus. *)
Theorem topk_docs_selects_best (docs : list string) (scores : list R) (k : Z) :
  length scores = length docs ->
  exists out,
    topk_docs docs scores k = Ok out
    /\ NoDup (fe_i <$> out)
    /\ (forall e j s d,
          e ∈ out -> j ∉ fe_i <$> out ->
          scores !! j = Some s -> docs !! j = Some d ->
          (s < fe_score e)%R
          \/ (fe_score e = s /\ String.ltb (fe_doc e) d = false))
    /\ ((Z.of_nat (length docs) <= k)%Z -> fe_doc <$> out ≡ₚ docs).
Proof.
  intros Hlen.
  destruct (topk_docs_selection docs scores k Hlen)
    as (out & Hout & Hnd & Hbest & Hall).
  exists out. split_and!; try done.
  intros e j s d He Hj Hs Hd. apply key_ge_real. eauto.
Qed.

Lemma topk_docs_selects_best_witness :
  exists out,
    topk_docs ["cat dog"; "bird"; "emu"] [1; 0; 2]%R 2 = Ok out
    /\ NoDup (fe_i <$> out)
    /\ (forall e j s d,
          e ∈ out -> j ∉ fe_i <$> out ->
          [1; 0; 2]%R !! j = Some s ->
          ["cat dog"; "bird"; "emu"] !! j = Some d ->
          (s < fe_score e)%R
          \/ (fe_score e = s /\ String.ltb (fe_doc e) d = false))
    /\ ((Z.of_nat (length ["cat dog"; "bird"; "emu"]) <= 2)%Z ->
        fe_doc <$> out ≡ₚ ["cat dog"; "bird"; "emu"]).
Proof.
  apply (topk_docs_selects_best ["cat dog"; "bird"; "emu"] [1; 0; 2]%R 2).
  reflexivity.
Defined.

(** X18. Raising K only appends: for parallel lists and K <= K', the
    reconstruction for K is the first K entries of the reconstruction for
    K', and for 0 <= K the same holds for the selector. *)
Theorem topk_prefix_of_larger_k (docs : list string) (scores : list R)
    (counts_map : gmap string Z) (k k' : Z) :
  length scores = length docs ->
  (0 <= k <= k')%Z ->
  (exists out out',
     topk_docs docs scores k = Ok out
     /\ topk_docs docs scores k' = Ok out'
     /\ out = take (Z.to_nat k) out')
  /\ (exists out out',
        topk_reconstructed docs scores counts_map k = Ok out
        /\ topk_reconstructed docs scores counts_map k' = Ok out'
        /\ out = take (Z.to_nat k) out').
Proof.
  intros Hlen Hk. split.
  - by apply topk_docs_prefix.
  - apply topk_reconstructed_prefix; [done|lia].
Qed.

Lemma topk_prefix_of_larger_k_witness :
  (exists out out',
     topk_docs ["cat dog"; "bird"] [1; 0]%R 1 = Ok out
     /\ topk_docs ["cat dog"; "bird"] [1; 0]%R 2 = Ok out'
     /\ out = take (Z.to_nat 1) out')
  /\ (exists out out',
        topk_reconstructed ["cat dog"; "bird"] [1; 0]%R
          {["cat dog" := 2%Z]} 1 = Ok out
        /\ topk_reconstructed ["cat dog"; "bird"] [1; 0]%R
             {["cat dog" := 2%Z]} 2 = Ok out'
        /\ out = take (Z.to_nat 1) out').
Proof.
  apply (topk_prefix_of_larger_k ["cat dog"; "bird"] [1; 0]%R
           {["cat dog" := 2%Z]} 1 2).
  - reflexivity.
  - lia.
Defined.

(** ** More on the expander *)

Lemma occurrences_take d n (l : list string) :
  occurrences d (take n l) <= occurrences d l.
Proof.
  unfold occurrences. revert n. induction l as [|x l IH]; intros [|n]; simpl;
    try lia.
  specialize (IH n). destruct (String.string_dec x d); lia.
Qed.

Lemma occurrences_perm d (l1 l2 : list string) :
  l1 ≡ₚ l2 -> occurrences d l1 = occurrences d l2.
Proof.
  intros Hp. unfold occurrences.
  by apply (Permutation_count_occ String.string_dec).
Qed.

Section ExpanderExtras.
Context {F : Type} `{PyFloatOrder F}.
Implicit Types (docs : list string) (scores : list F)
  (counts_map : gmap string Z) (order : list (F * string)).

Lemma expand_all_default counts_map order :
  (forall x, x ∈ order -> get counts_map x.2 1%Z = 1%Z) ->
  expand_all counts_map order = order.
Proof.
  induction order as [|x order IH]; intros Hone; [done|].
  unfold expand_all in *. simpl. rewrite (Hone x) by left. simpl.
  f_equal. apply IH. intros y Hy. apply Hone. by right.
Qed.

Lemma ranking_docs docs scores :
  length scores = length docs -> snd <$> ranking docs scores ≡ₚ docs.
Proof.
  intros Hlen. rewrite (ranking_perm docs scores Hlen).
  by rewrite snd_zip by lia.
Qed.

Lemma topk_reconstructed_default docs scores counts_map k :
  length scores = length docs ->
  (0 <= k)%Z ->
  (forall d, d ∈ docs -> get counts_map d 1%Z = 1%Z) ->
  exists ft rt,
    topk_docs docs scores k = Ok ft
    /\ topk_reconstructed docs scores counts_map k = Ok rt
    /\ (fun e => (re_rank e, re_score e, re_doc e)) <$> rt
       = (fun e => (fe_rank e, fe_score e, fe_doc e)) <$> ft.
Proof.
  intros Hlen Hk Hone. do 2 eexists.
  split; [by apply topk_docs_ok|].
  split; [by apply topk_reconstructed_ok|].
  rewrite walk_take, expand_all_default.
  2:{ intros x Hx. apply Hone. rewrite <- (ranking_docs docs scores Hlen).
      apply list_elem_of_fmap. eauto. }
  rewrite slice_to_nonneg by done.
  unfold recon_entries, full_entries, ranking.
  rewrite <- fmap_take, imap_fmap, !fmap_imap.
  apply imap_ext. by intros r [[s d] i] _.
Qed.

Lemma occurrences_expand_all counts_map order d :
  occurrences d (snd <$> expand_all counts_map order)
  = Z.to_nat (get counts_map d 1%Z) * occurrences d (snd <$> order).
Proof.
  induction order as [|x order IH]; [simpl; lia|].
  change (expand_all counts_map (x :: order))
    with (replicate (Z.to_nat (get counts_map x.2 1%Z)) x
          ++ expand_all counts_map order).
  rewrite fmap_app, fmap_replicate. unfold occurrences in *.
  rewrite count_occ_app, IH.
  pose proof (occurrences_replicate d x.2
                (Z.to_nat (get counts_map x.2 1%Z))) as Hrep.
  unfold occurrences in Hrep. rewrite Hrep. csimpl.
  destruct (String.string_dec x.2 d) as [->|Hne].
  - rewrite decide_True by done. lia.
  - rewrite decide_False by done. lia.
Qed.

Lemma topk_reconstructed_copies docs scores counts_map k :
  length scores = length docs ->
  exists out,
    topk_reconstructed docs scores counts_map k = Ok out
    /\ forall d,
         occurrences d (re_doc <$> out)
         <= Z.to_nat (get counts_map d 1%Z) * occurrences d docs.
Proof.
  intros Hlen. eexists. split; [by apply topk_reconstructed_ok|].
  intros d. rewrite recon_entries_docs, walk_take, fmap_take.
  etransitivity; [apply occurrences_take|].
  rewrite occurrences_expand_all.
  by rewrite (occurrences_perm d _ _ (ranking_docs docs scores Hlen)).
Qed.

End ExpanderExtras.

(** X19. When every unique document has count 1, or no entry in the
    count map, and K >= 0, the reconstruction is the plain top-K: the same
    ranks, scores and documents as the selector returns. *)
Theorem topk_reconstructed_without_counts (unique_docs : list string)
    (unique_scores : list R) (counts_map : gmap string Z) (k : Z) :
  length unique_scores = length unique_docs ->
  (0 <= k)%Z ->
  (forall d, d ∈ unique_docs -> get counts_map d 1%Z = 1%Z) ->
  exists ft rt,
    topk_docs unique_docs unique_scores k = Ok ft
    /\ topk_reconstructed unique_docs unique_scores counts_map k = Ok rt
    /\ (fun e => (re_rank e, re_score e, re_doc e)) <$> rt
       = (fun e => (fe_rank e, fe_score e, fe_doc e)) <$> ft.
Proof. apply topk_reconstructed_default. Qed.

Lemma topk_reconstructed_without_counts_witness :
  exists ft rt,
    topk_docs ["cat dog"; "bird"] [1; 0]%R 2 = Ok ft
    /\ topk_reconstructed ["cat dog"; "bird"] [1; 0]%R ∅ 2 = Ok rt
    /\ (fun e => (re_rank e, re_score e, re_doc e)) <$> rt
       = (fun e => (fe_rank e, fe_score e, fe_doc e)) <$> ft.
Proof.
  apply (topk_reconstructed_without_counts ["cat dog"; "bird"] [1; 0]%R ∅ 2).
  - reflexivity.
  - lia.
  - intros d _. unfold get. by rewrite lookup_empty.
Defined.

(** X20. The expander never emits more copies of a document than its
    count allows: at most count_map.get(doc, 1) entries for each time the
    document is listed among the unique documents, and none when the count
    is not positive. *)
Theorem topk_reconstructed_at_most_count (unique_docs : list string)
    (unique_scores : list R) (counts_map : gmap string Z) (k : Z) :
  length unique_scores = length unique_docs ->
  exists out,
    topk_reconstructed unique_docs unique_scores counts_map k = Ok out
    /\ forall d,
         occurrences d (re_doc <$> out)
         <= Z.to_nat (get counts_map d 1%Z) * occurrences d unique_docs.
Proof. apply topk_reconstructed_copies. Qed.

Lemma topk_reconstructed_at_most_count_witness :
  exists out,
    topk_reconstructed ["cat dog"; "bird"] [1; 0]%R {["cat dog" := 2%Z]} 5
    = Ok out
    /\ forall d,
         occurrences d (re_doc <$> out)
         <= Z.to_nat (get {["cat dog" := 2%Z]} d 1%Z)
            * occurrences d ["cat dog"; "bird"].
Proof.
  apply (topk_reconstructed_at_most_count ["cat dog"; "bird"] [1; 0]%R
           {["cat dog" := 2%Z]} 5).
  reflexivity.
Defined.

(** ** More on the comparison *)

Section DiffExtras.
Context {F : Type} `{PyFloat F}.
Implicit Types (ft : list (full_entry F)) (rt : list (recon_entry F)).

Lemma diff_step_differs ft rt ms i f r :
  ft !! i = Some f -> rt !! i = Some r -> fe_doc f <> re_doc r ->
  diff_step ft rt ms i
  = Ok (ms ++ [{| m_rank := i + 1;
                  m_full_doc := fe_doc f; m_full_score := fe_score f;
                  m_recon_doc := re_doc r; m_recon_score := re_score r |}]).
Proof.
  intros Hf Hr Hne. unfold diff_step.
  rewrite (index_lookup _ _ _ Hf), (index_lookup _ _ _ Hr). simpl.
  by rewrite decide_False.
Qed.

Lemma diff_loop_list ft rt acc l :
  (forall i, i ∈ l -> i < min (length ft) (length rt)) ->
  for_each (diff_step ft rt) acc l = Ok (acc ++ diff_list ft rt l).
Proof.
  revert acc. induction l as [|i l IH]; intros acc Hl; simpl.
  { by rewrite app_nil_r. }
  assert (i < min (length ft) (length rt)) as Hi by (apply Hl; by left).
  destruct (lookup_lt_is_Some_2 ft i) as [f Hf]; [lia|].
  destruct (lookup_lt_is_Some_2 rt i) as [r Hr]; [lia|].
  assert (forall j, j ∈ l -> j < min (length ft) (length rt)) as Hl'
    by (intros j Hj; apply Hl; by right).
  unfold diff_list in *. simpl. rewrite Hf, Hr.
  destruct (decide (fe_doc f = re_doc r)) as [Heq|Hne].
  - rewrite (diff_step_same _ _ _ _ _ _ Hf Hr Heq). simpl. by apply IH.
  - rewrite (diff_step_differs _ _ _ _ _ _ Hf Hr Hne). simpl.
    rewrite IH by done. by rewrite <- app_assoc.
Qed.

Lemma diff_ok ft rt :
  diff ft rt
  = Ok (diff_list ft rt (seq 0 (min (length ft) (length rt)))).
Proof.
  unfold diff. rewrite diff_loop_list; [done|].
  intros i Hi. apply elem_of_seq in Hi. lia.
Qed.

Lemma elem_of_diff_list ft rt l m :
  m ∈ diff_list ft rt l <->
  exists i f r,
    i ∈ l /\ ft !! i = Some f /\ rt !! i = Some r
    /\ fe_doc f <> re_doc r
    /\ m = {| m_rank := i + 1;
              m_full_doc := fe_doc f; m_full_score := fe_score f;
              m_recon_doc := re_doc r; m_recon_score := re_score r |}.
Proof.
  unfold diff_list. rewrite list_elem_of_In, in_flat_map. split.
  - intros (i & Hi & Hm). apply list_elem_of_In in Hi.
    destruct (ft !! i) as [f|] eqn:Hf; [|inv Hm].
    destruct (rt !! i) as [r|] eqn:Hr; [|inv Hm].
    destruct (decide (fe_doc f = re_doc r)); [inv Hm|].
    destruct Hm as [<-|[]]. by exists i, f, r.
  - intros (i & f & r & Hi & Hf & Hr & Hne & ->).
    exists i. split; [by apply list_elem_of_In|].
    rewrite Hf, Hr, decide_False by done. by left.
Qed.

Lemma diff_list_length ft rt l : length (diff_list ft rt l) <= length l.
Proof.
  induction l as [|i l IH]; [done|]. unfold diff_list in *. simpl.
  rewrite length_app.
  destruct (ft !! i), (rt !! i); simpl; try lia.
  destruct (decide _); simpl; lia.
Qed.

Lemma diff_list_ranks ft rt a n :
  StronglySorted lt (m_rank <$> diff_list ft rt (seq a n))
  /\ Forall (fun rk => a < rk) (m_rank <$> diff_list ft rt (seq a n)).
Proof.
  revert a. induction n as [|n IH]; intros a.
  { split; constructor. }
  destruct (IH (S a)) as [Hs Hb].
  assert (Forall (fun rk => a + 1 < rk)
            (m_rank <$> diff_list ft rt (seq (S a) n))) as Hb'.
  { eapply Forall_impl; [exact Hb|]. simpl. lia. }
  unfold diff_list in *. simpl.
  destruct (ft !! a) as [f|]; [|split; [done|]].
  2:{ eapply Forall_impl; [exact Hb|]. simpl. lia. }
  destruct (rt !! a) as [r|]; [|split; [done|]].
  2:{ eapply Forall_impl; [exact Hb|]. simpl. lia. }
  destruct (decide (fe_doc f = re_doc r)); simpl.
  - split; [done|]. eapply Forall_impl; [exact Hb|]. simpl. lia.
  - split.
    + constructor; [done|]. exact Hb'.
    + constructor; [lia|]. eapply Forall_impl; [exact Hb|]. simpl. lia.
Qed.

Lemma diff_spec ft rt :
  exists ms,
    diff ft rt = Ok ms
    /\ (forall m, m ∈ ms <->
          exists i f r,
            ft !! i = Some f /\ rt !! i = Some r
            /\ fe_doc f <> re_doc r
            /\ m = {| m_rank := i + 1;
                      m_full_doc := fe_doc f; m_full_score := fe_score f;
                      m_recon_doc := re_doc r; m_recon_score := re_score r |})
    /\ StronglySorted lt (m_rank <$> ms)
    /\ length ms <= min (length ft) (length rt).
Proof.
  eexists. split; [apply diff_ok|]. split; [|split].
  - intros m. rewrite elem_of_diff_list. split.
    + intros (i & f & r & _ & Hrest). by exists i, f, r.
    + intros (i & f & r & Hf & Hr & Hrest). exists i, f, r.
      split; [|done]. apply elem_of_seq.
      apply lookup_lt_Some in Hf, Hr. lia.
  - apply diff_list_ranks.
  - etransitivity; [apply diff_list_length|]. by rewrite length_seq.
Qed.

End DiffExtras.

(** X21. The comparison loop raises nothing and records exactly the
    positions, up to the length of the shorter list, at which the two
    documents differ: one record for each, with rank position + 1 and the
    documents and scores of both entries, in increasing rank order.  Scores
    that differ at a position with the same document leave no record. *)
Theorem diff_records_differences (ft : list (full_entry R))
    (rt : list (recon_entry R)) :
  exists ms,
    diff ft rt = Ok ms
    /\ (forall m, m ∈ ms <->
          exists i f r,
            ft !! i = Some f /\ rt !! i = Some r
            /\ fe_doc f <> re_doc r
            /\ m = {| m_rank := i + 1;
                      m_full_doc := fe_doc f; m_full_score := fe_score f;
                      m_recon_doc := re_doc r; m_recon_score := re_score r |})
    /\ StronglySorted lt (m_rank <$> ms)
    /\ length ms <= min (length ft) (length rt).
Proof. apply diff_spec. Qed.

(** ** The two programs, end to end *)

Lemma strict_compare_unfold full_docs red_docs counts_map q_terms k :
  Strict.compare full_docs red_docs counts_map q_terms k
  = (ft ← topk_docs full_docs (corpus_score full_docs q_terms <$> full_docs) k;
     rt ← topk_reconstructed red_docs
            (corpus_score full_docs q_terms <$> red_docs) counts_map k;
     ms ← diff ft rt;
     Ok (report ft rt ms)).
Proof.
  unfold Strict.compare.
  pose proof (build_full_stats_avgdl_nonneg full_docs) as Ha.
  rewrite (map_result_seq _ (corpus_score full_docs q_terms) full_docs).
  2:{ intros i d Hd.
      rewrite (index_lookup _ _ _ (build_full_stats_toks _ _ _ Hd)). simpl.
      by apply bm25_score_doc_ok. }
  rewrite (map_result_ok _ (corpus_score full_docs q_terms) red_docs)
    by (intros d _; by apply bm25_score_doc_ok).
  done.
Qed.

Lemma bm25_scores_ok docs q_terms :
  bm25_scores docs q_terms k1_default b_default
  = Ok (corpus_score docs q_terms <$> docs,
        st_df (build_full_stats docs), st_avgdl (build_full_stats docs)).
Proof.
  rewrite bm25_scores_score_doc. cbv zeta.
  pose proof (build_full_stats_avgdl_nonneg docs) as Ha.
  rewrite (map_result_ok _ (corpus_score docs q_terms) docs)
    by (intros d _; by apply bm25_score_doc_ok).
  done.
Qed.

Lemma equiv_compare_unfold full_docs red_docs counts_map q_terms k :
  Equiv.compare full_docs red_docs counts_map q_terms k
  = (ft ← topk_docs full_docs (corpus_score full_docs q_terms <$> full_docs) k;
     rt ← topk_reconstructed red_docs
            (corpus_score red_docs q_terms <$> red_docs) counts_map k;
     ms ← diff ft rt;
     Ok (report ft rt ms)).
Proof. unfold Equiv.compare. by rewrite !bm25_scores_ok. Qed.

(** What a comparison of parallel inputs returns. *)
Lemma compare_outcome (full_docs red_docs : list string)
    (full_scores red_scores : list R) counts_map k :
  length full_scores = length full_docs ->
  length red_scores = length red_docs ->
  exists o,
    (ft ← topk_docs full_docs full_scores k;
     rt ← topk_reconstructed red_docs red_scores counts_map k;
     ms ← diff ft rt;
     Ok (report ft rt ms)) = Ok o
    /\ topk_docs full_docs full_scores k = Ok (full_top o)
    /\ topk_reconstructed red_docs red_scores counts_map k = Ok (red_top o)
    /\ diff (full_top o) (red_top o) = Ok (mismatches o)
    /\ (status_pass o = true <-> mismatches o = []).
Proof.
  intros Hf Hr.
  rewrite topk_docs_ok, topk_reconstructed_ok by done.
  cbn [mbind result_bind]. rewrite diff_ok. cbn [mbind result_bind].
  eexists. split; [done|]. cbn [full_top red_top mismatches status_pass].
  split_and!; try done; [apply diff_ok|].
  destruct (diff_list _ _ _); split; done.
Qed.

Lemma diff_nil_iff (ft : list (full_entry R)) (rt : list (recon_entry R)) ms :
  diff ft rt = Ok ms ->
  ms = [] <->
  (forall i f r, ft !! i = Some f -> rt !! i = Some r -> fe_doc f = re_doc r).
Proof.
  intros Hms. destruct (diff_spec ft rt) as (ms' & Hms' & Hin & _).
  rewrite Hms in Hms'. injection Hms' as <-. split.
  - intros -> i f r Hf Hr.
    destruct (decide (fe_doc f = re_doc r)) as [|Hne]; [done|].
    exfalso. eapply not_elem_of_nil, Hin. by exists i, f, r.
  - intros Hsame. destruct ms as [|m ms]; [done|].
    destruct (proj1 (Hin m)) as (i & f & r & Hf & Hr & Hne & _); [by left|].
    by specialize (Hsame i f r Hf Hr).
Qed.

Lemma compare_verdict (full_docs red_docs : list string)
    (full_scores red_scores : list R) counts_map k :
  length full_scores = length full_docs ->
  length red_scores = length red_docs ->
  exists o,
    (ft ← topk_docs full_docs full_scores k;
     rt ← topk_reconstructed red_docs red_scores counts_map k;
     ms ← diff ft rt;
     Ok (report ft rt ms)) = Ok o
    /\ (status_pass o = true <->
        forall i f r,
          full_top o !! i = Some f -> red_top o !! i = Some r ->
          fe_doc f = re_doc r)
    /\ length (mismatches o) <= min (length full_docs) (length (red_top o))
    /\ ((full_docs = [] \/ red_docs = [] \/ (k <= 0)%Z) ->
        status_pass o = true).
Proof.
  intros Hf Hr.
  destruct (compare_outcome full_docs red_docs full_scores red_scores
              counts_map k Hf Hr) as (o & Ho & Hft & Hrt & Hms & Hpass).
  exists o. split; [done|].
  pose proof (diff_nil_iff _ _ _ Hms) as Hnil.
  split; [by rewrite Hpass, Hnil|].
  assert (length (full_top o) <= length full_docs) as Hlen.
  { rewrite topk_docs_ok in Hft by done. injection Hft as <-.
    unfold full_entries. rewrite length_imap.
    destruct (slice_to_prefix (sort_desc (keyed full_docs full_scores)) k)
      as [n ->].
    rewrite length_take, sort_desc_length, keyed_length by done. lia. }
  destruct (diff_spec (full_top o) (red_top o)) as (ms & Hms' & _ & _ & Hle).
  rewrite Hms in Hms'. injection Hms' as <-.
  split; [lia|].
  intros Hvac. apply Hpass.
  assert (min (length (full_top o)) (length (red_top o)) = 0) as Hmin.
  { destruct Hvac as [->|[->|Hk]].
    - simpl in Hlen. lia.
    - rewrite topk_reconstructed_ok in Hrt by done. injection Hrt as <-.
      rewrite recon_entries_length.
      pose proof (walk_length_le counts_map (Z.to_nat k)
                    (ranking [] red_scores)) as Hw.
      rewrite walk_take, length_take in *.
      assert (length (expand_all counts_map (ranking [] red_scores)) = 0)
        as ->; [|lia].
      destruct red_scores; [done|done].
    - rewrite topk_reconstructed_ok in Hrt by done. injection Hrt as <-.
      rewrite recon_entries_length.
      pose proof (walk_length_le counts_map (Z.to_nat k)
                    (ranking red_docs red_scores)). lia. }
  destruct (mismatches o); [done|simpl in Hle; lia].
Qed.

(** X22. Neither program raises, whatever the corpora, the count map, the
    query terms and K are, and the report states PASS exactly when the two
    ranked lists name the same document at every position they share; there
    are never more mismatches than FULL has documents or the reconstruction
    has entries. *)
Theorem compare_never_raises (full_docs red_docs : list string)
    (counts_map : gmap string Z) (q_terms : list string) (k : Z) :
  (exists o,
     Strict.compare full_docs red_docs counts_map q_terms k = Ok o
     /\ (status_pass o = true <->
         forall i f r,
           full_top o !! i = Some f -> red_top o !! i = Some r ->
           fe_doc f = re_doc r)
     /\ length (mismatches o) <= min (length full_docs) (length (red_top o)))
  /\ (exists o,
        Equiv.compare full_docs red_docs counts_map q_terms k = Ok o
        /\ (status_pass o = true <->
            forall i f r,
              full_top o !! i = Some f -> red_top o !! i = Some r ->
              fe_doc f = re_doc r)
        /\ length (mismatches o)
           <= min (length full_docs) (length (red_top o))).
Proof.
  split.
  - rewrite strict_compare_unfold.
    destruct (compare_verdict full_docs red_docs
                (corpus_score full_docs q_terms <$> full_docs)
                (corpus_score full_docs q_terms <$> red_docs) counts_map k)
      as (o & Ho & Hv & Hl & _); [apply length_fmap..|]. eauto.
  - rewrite equiv_compare_unfold.
    destruct (compare_verdict full_docs red_docs
                (corpus_score full_docs q_terms <$> full_docs)
                (corpus_score red_docs q_terms <$> red_docs) counts_map k)
      as (o & Ho & Hv & Hl & _); [apply length_fmap..|]. eauto.
Qed.

(** X23. When FULL is empty, or REDUCED is empty, or K is not positive,
    both programs report PASS: there is no position that both ranked lists
    share, so nothing is compared. *)
Theorem compare_vacuous_pass (full_docs red_docs : list string)
    (counts_map : gmap string Z) (q_terms : list string) (k : Z) :
  full_docs = [] \/ red_docs = [] \/ (k <= 0)%Z ->
  (exists o,
     Strict.compare full_docs red_docs counts_map q_terms k = Ok o
     /\ mismatches o = [] /\ status_pass o = true)
  /\ (exists o,
        Equiv.compare full_docs red_docs counts_map q_terms k = Ok o
        /\ mismatches o = [] /\ status_pass o = true).
Proof.
  intros Hvac. split.
  - rewrite strict_compare_unfold.
    destruct (compare_outcome full_docs red_docs
                (corpus_score full_docs q_terms <$> full_docs)
                (corpus_score full_docs q_terms <$> red_docs) counts_map k)
      as (o' & Ho' & _ & _ & _ & Hp); [apply length_fmap..|].
    destruct (compare_verdict full_docs red_docs
                (corpus_score full_docs q_terms <$> full_docs)
                (corpus_score full_docs q_terms <$> red_docs) counts_map k)
      as (o & Ho & _ & _ & Hv); [apply length_fmap..|].
    rewrite Ho in Ho'. injection Ho' as <-.
    exists o. split; [done|]. split; [apply Hp|]; auto.
  - rewrite equiv_compare_unfold.
    destruct (compare_outcome full_docs red_docs
                (corpus_score full_docs q_terms <$> full_docs)
                (corpus_score red_docs q_terms <$> red_docs) counts_map k)
      as (o' & Ho' & _ & _ & _ & Hp); [apply length_fmap..|].
    destruct (compare_verdict full_docs red_docs
                (corpus_score full_docs q_terms <$> full_docs)
                (corpus_score red_docs q_terms <$> red_docs) counts_map k)
      as (o & Ho & _ & _ & Hv); [apply length_fmap..|].
    rewrite Ho in Ho'. injection Ho' as <-.
    exists o. split; [done|]. split; [apply Hp|]; auto.
Qed.

Lemma compare_vacuous_pass_witness :
  (exists o,
     Strict.compare [] ["cat dog"; "bird"] {["cat dog" := 2%Z]} ["cat"] 3
     = Ok o
     /\ mismatches o = [] /\ status_pass o = true)
  /\ (exists o,
        Equiv.compare [] ["cat dog"; "bird"] {["cat dog" := 2%Z]} ["cat"] 3
        = Ok o
        /\ mismatches o = [] /\ status_pass o = true).
Proof.
  apply (compare_vacuous_pass [] ["cat dog"; "bird"] {["cat dog" := 2%Z]}
           ["cat"] 3).
  by left.
Defined.

(** ** Independent statistics *)

Lemma sum_list_perm (l1 l2 : list nat) : l1 ≡ₚ l2 -> sum_list l1 = sum_list l2.
Proof. induction 1; simpl; lia. Qed.

Lemma build_full_stats_perm (docs1 docs2 : list string) :
  docs1 ≡ₚ docs2 ->
  st_N (build_full_stats docs1) = st_N (build_full_stats docs2)
  /\ st_avgdl (build_full_stats docs1) = st_avgdl (build_full_stats docs2)
  /\ forall q, df_of (st_df (build_full_stats docs1)) q
               = df_of (st_df (build_full_stats docs2)) q.
Proof.
  intros Hp. unfold build_full_stats. cbn [st_N st_avgdl st_df].
  assert (map tokenize docs1 ≡ₚ map tokenize docs2) as Htoks
    by (by apply Permutation_map).
  split; [by rewrite !length_map, Hp|]. split.
  - rewrite !length_map, (Permutation_length Hp).
    unfold mean_length. destruct (length docs2 =? 0); [done|].
    do 2 f_equal. apply sum_list_perm. by apply Permutation_map.
  - intros q. rewrite !df_count_from. f_equal.
    apply Permutation_length. by apply filter_Permutation.
Qed.

Lemma bm25_formula_df_ext doc q_terms N avgdl df df' k1 b :
  (forall q, df_of df q = df_of df' q) ->
  bm25_formula doc q_terms N avgdl df k1 b
  = bm25_formula doc q_terms N avgdl df' k1 b.
Proof.
  intros Hdf. unfold bm25_formula. f_equal. apply map_ext. intros q.
  unfold contribution, idf_formula. by rewrite Hdf.
Qed.

Lemma corpus_score_perm (docs1 docs2 q_terms : list string) d :
  docs1 ≡ₚ docs2 ->
  corpus_score docs1 q_terms d = corpus_score docs2 q_terms d.
Proof.
  intros Hp. unfold corpus_score. cbv zeta.
  destruct (build_full_stats_perm docs1 docs2 Hp) as (-> & -> & Hdf).
  by apply bm25_formula_df_ext.
Qed.

(** X24. When REDUCED is a reordering of FULL the statistics of the two
    corpora give every document the same score, and the program with
    independent statistics returns exactly what the program with locked
    statistics returns. *)
Theorem independent_equals_locked (full_docs red_docs : list string)
    (counts_map : gmap string Z) (q_terms : list string) (k : Z) :
  red_docs ≡ₚ full_docs ->
  Equiv.compare full_docs red_docs counts_map q_terms k
  = Strict.compare full_docs red_docs counts_map q_terms k.
Proof.
  intros Hp. rewrite equiv_compare_unfold, strict_compare_unfold.
  assert (corpus_score red_docs q_terms <$> red_docs
          = corpus_score full_docs q_terms <$> red_docs) as ->; [|done].
  apply list_fmap_ext. intros i d _. by apply corpus_score_perm.
Qed.

Lemma independent_equals_locked_witness :
  Equiv.compare ["cat dog"; "bird"] ["bird"; "cat dog"] ∅ ["cat"] 2
  = Strict.compare ["cat dog"; "bird"] ["bird"; "cat dog"] ∅ ["cat"] 2.
Proof.
  apply (independent_equals_locked ["cat dog"; "bird"] ["bird"; "cat dog"]
           ∅ ["cat"] 2).
  apply perm_swap.
Defined.

Section NoDuplicates.
Context {F : Type} `{PyFloatOrder F}.
Variable sc : string -> F.

Lemma reorder_matches (full_docs red_docs : list string)
    (counts_map : gmap string Z) k :
  NoDup full_docs -> red_docs ≡ₚ full_docs ->
  (forall d, d ∈ red_docs -> get counts_map d 1%Z = 1%Z) ->
  exists ft rt,
    topk_docs full_docs (sc <$> full_docs) k = Ok ft
    /\ topk_reconstructed red_docs (sc <$> red_docs) counts_map k = Ok rt
    /\ diff ft rt = Ok [].
Proof.
  intros Hnd Hp Hone. do 2 eexists.
  split; [apply topk_docs_ok, length_fmap|].
  split; [apply topk_reconstructed_ok, length_fmap|].
  assert (ranking red_docs (sc <$> red_docs)
          = ranking full_docs (sc <$> full_docs)) as Hrank.
  { apply (StronglySorted_unique key_ge); [apply ranking_sorted..|].
    rewrite !ranking_perm by apply length_fmap.
    rewrite !zip_fmap_score. by apply fmap_Permutation. }
  apply diff_nil. intros i f r Hf Hr.
  apply full_entries_lookup in Hf as (x & Hx & ->).
  apply recon_entries_lookup in Hr as (y & Hy & ->). simpl.
  rewrite walk_take, expand_all_default in Hy.
  2:{ intros z Hz. apply Hone.
      rewrite <- (ranking_docs red_docs (sc <$> red_docs))
        by apply length_fmap.
      apply list_elem_of_fmap. eauto. }
  rewrite Hrank in Hy. apply lookup_take_Some in Hy as [Hy _].
  destruct (slice_to_prefix (sort_desc (keyed full_docs (sc <$> full_docs))) k)
    as [n Hn].
  rewrite Hn in Hx. apply lookup_take_Some in Hx as [Hx _].
  unfold ranking in Hy. rewrite list_lookup_fmap, Hx in Hy.
  by injection Hy as <-.
Qed.

End NoDuplicates.

(** X25. When FULL has no duplicate document, REDUCED is a reordering of
    it and every document has count 1 or no entry in the count map, both
    programs report PASS for every query and every K. *)
Theorem no_duplicates_pass (full_docs red_docs : list string)
    (counts_map : gmap string Z) (q_terms : list string) (k : Z) :
  NoDup full_docs ->
  red_docs ≡ₚ full_docs ->
  (forall d, d ∈ red_docs -> get counts_map d 1%Z = 1%Z) ->
  (exists o,
     Strict.compare full_docs red_docs counts_map q_terms k = Ok o
     /\ mismatches o = [] /\ status_pass o = true)
  /\ (exists o,
        Equiv.compare full_docs red_docs counts_map q_terms k = Ok o
        /\ mismatches o = [] /\ status_pass o = true).
Proof.
  intros Hnd Hp Hone.
  assert (exists o,
            Strict.compare full_docs red_docs counts_map q_terms k = Ok o
            /\ mismatches o = [] /\ status_pass o = true) as Hstrict.
  { rewrite strict_compare_unfold.
    destruct (reorder_matches (corpus_score full_docs q_terms) full_docs
                red_docs counts_map k Hnd Hp Hone)
      as (ft & rt & -> & -> & Hdiff).
    cbn [mbind result_bind]. rewrite Hdiff. simpl. eauto. }
  split; [done|].
  assert (Equiv.compare full_docs red_docs counts_map q_terms k
          = Strict.compare full_docs red_docs counts_map q_terms k) as ->;
    [|done].
  rewrite equiv_compare_unfold, strict_compare_unfold.
  assert (corpus_score red_docs q_terms <$> red_docs
          = corpus_score full_docs q_terms <$> red_docs) as ->; [|done].
  apply list_fmap_ext. intros i d _. by apply corpus_score_perm.
Qed.

Lemma no_duplicates_pass_witness :
  (exists o,
     Strict.compare ["cat dog"; "bird"] ["bird"; "cat dog"] ∅ ["cat"] 2 = Ok o
     /\ mismatches o = [] /\ status_pass o = true)
  /\ (exists o,
        Equiv.compare ["cat dog"; "bird"] ["bird"; "cat dog"] ∅ ["cat"] 2
        = Ok o
        /\ mismatches o = [] /\ status_pass o = true).
Proof.
  apply (no_duplicates_pass ["cat dog"; "bird"] ["bird"; "cat dog"] ∅
           ["cat"] 2).
  - apply (bool_decide_unpack _). vm_compute. reflexivity.
  - apply perm_swap.
  - intros d _. unfold get. by rewrite lookup_empty.
Defined.

(** ** Loading twice *)

Lemma strip_norm_chars s : strip (norm_chars s) = norm_chars s.
Proof.
  unfold norm_chars, strip at 1.
  rewrite lstrip_lower, rstrip_lower. f_equal. apply strip_idem.
Qed.

Lemma load_corpus_fixed (docs : list string) :
  Forall (fun d => d <> "" /\ norm_ws_lower d = d) docs ->
  load_corpus docs = docs.
Proof.
  unfold load_corpus. induction 1 as [|d docs [Hne Hnorm] _ IH]; [done|].
  rewrite filter_cons, decide_True.
  - csimpl. by rewrite Hnorm, IH.
  - rewrite <- Hnorm. unfold norm_ws_lower.
    rewrite list_ascii_of_string_of_list_ascii, strip_norm_chars.
    intros Hnil. apply Hne. rewrite <- Hnorm. unfold norm_ws_lower.
    by rewrite Hnil.
Qed.

Lemma load_corpus_normal (lines : list string) :
  Forall (fun d => d <> "" /\ norm_ws_lower d = d) (load_corpus lines).
Proof.
  unfold load_corpus. apply Forall_forall. intros d Hd.
  apply list_elem_of_In, in_map_iff in Hd as (x & <- & Hx).
  apply list_elem_of_In, list_elem_of_filter in Hx as [Hx _].
  split.
  2:{ unfold norm_ws_lower.
      by rewrite list_ascii_of_string_of_list_ascii, norm_chars_idem. }
  unfold norm_ws_lower. intros Hnil.
  destruct (norm_chars (list_ascii_of_string x)) as [|c r] eqn:Hn; [|done].
  by apply norm_chars_nil in Hn.
Qed.

(** X26. Loading is idempotent: a corpus that was loaded once is returned
    unchanged when its documents are loaded again as lines, so both programs
    return the same for the raw lines and for the loaded documents. *)
Theorem load_corpus_idempotent (full_lines red_lines : list string)
    (counts_map : gmap string Z) (qs : list string) (k : Z) :
  load_corpus (load_corpus full_lines) = load_corpus full_lines
  /\ Strict.main (load_corpus full_lines) (load_corpus red_lines)
       counts_map qs k
     = Strict.main full_lines red_lines counts_map qs k
  /\ Equiv.main (load_corpus full_lines) (load_corpus red_lines)
       counts_map qs k
     = Equiv.main full_lines red_lines counts_map qs k.
Proof.
  unfold Strict.main, Equiv.main.
  by rewrite !(load_corpus_fixed _ (load_corpus_normal _)).
Qed.
